(** * lcanalyzer.models: statistics and normalisation of lightcurve tables

    A shallow embedding of [lcanalyzer/models.py].  The module is a thin
    layer over pandas: every function is one or a few calls of
    [DataFrame.__getitem__], [Series.min], [Series.max], [Series.mean],
    [DataFrame.__sub__], [Series.__truediv__] and [Series.fillna].  The
    embedding therefore has two layers:

    - the pandas operations the module calls, for columns whose cells are
      numbers or text, over an element type given by the class [Dtype];
    - the five functions of the module, written call for call on top.

    Three element types are provided.  [float64] is IEEE-754 binary64 as
    specified by [SpecFloat] (the dtype pandas gives a magnitude column);
    [int64] adds the columns of 64-bit integers, whose subtraction wraps
    around and whose quotients and means are floats; [exact] is the
    arithmetic of binary64 without rounding and overflow, on rationals
    extended by the infinities and NaN. *)

From Stdlib Require Import ZArith QArith Qcanon.
From Stdlib Require Import Floats.SpecFloat.
From stdpp Require Import base option list gmap strings numbers.

Local Open Scope string_scope.

(** ** Python exceptions and results *)

Inductive exn :=
  | KeyError (key : string)
  | TypeError.

Inductive result (A : Type) :=
  | Ok (a : A)
  | Raise (e : exn).
Arguments Ok {A} a.
Arguments Raise {A} e.

#[global] Instance exn_eq_dec : EqDecision exn.
Proof. solve_decision. Defined.

#[global] Instance result_ret : MRet result := λ A a, Ok a.
#[global] Instance result_bind : MBind result := λ A B f m,
  match m with
  | Ok a => f a
  | Raise e => Raise e
  end.
#[global] Instance result_fmap : FMap result := λ A B f m,
  match m with
  | Ok a => Ok (f a)
  | Raise e => Raise e
  end.

Definition is_Ok {A} (r : result A) : Prop := ∃ a, r = Ok a.
Definition is_Raise {A} (r : result A) : Prop := ∃ e, r = Raise e.

(** A computation whose only failure is a [TypeError]. *)
Definition type_errors {X} (r : result X) : Prop :=
  ∀ e, r = Raise e → e = TypeError.

(** Monadic left fold: the body of a [for] loop that may raise. *)
Fixpoint foldlM {A B} (f : A → B → result A) (a : A) (l : list B) : result A :=
  match l with
  | [] => Ok a
  | b :: l => a' ← f a b; foldlM f a' l
  end.

(** ** Element types *)

(** The arithmetic a numeric column is computed with.  [d_le] is the
    comparison [<=] (false whenever an operand is NaN), [d_of_nat] the
    conversion of a row count. *)
Class Dtype (A : Type) := {
  d_zero : A;
  d_nan : A;
  d_isnan : A → bool;
  d_add : A → A → A;
  d_sub : A → A → A;
  d_div : A → A → A;
  d_le : A → A → bool;
  d_of_nat : nat → A;
}.

(** The laws of NaN the normaliser relies on: NaN is absorbing for [-]
    and [/], [x - x] is zero unless it is NaN, and [0 / 0] is NaN. *)
Class NanLaws (A : Type) `{Dtype A} : Prop := {
  isnan_nan : d_isnan d_nan = true;
  isnan_zero : d_isnan d_zero = false;
  isnan_sub_l x y : d_isnan x = true → d_isnan (d_sub x y) = true;
  isnan_sub_r x y : d_isnan y = true → d_isnan (d_sub x y) = true;
  isnan_div_l x y : d_isnan x = true → d_isnan (d_div x y) = true;
  isnan_div_r x y : d_isnan y = true → d_isnan (d_div x y) = true;
  sub_diag x : d_isnan (d_sub x x) = true ∨ d_sub x x = d_zero;
  div_zero_zero : d_isnan (d_div d_zero d_zero) = true;
}.

(** [<=] is a total preorder on the values that are not NaN. *)
Class OrderLaws (A : Type) `{Dtype A} : Prop := {
  le_total x y :
    d_isnan x = false → d_isnan y = false → d_le x y = true ∨ d_le y x = true;
  le_trans x y z : d_le x y = true → d_le y z = true → d_le x z = true;
}.

(** ** The pandas operations used by the module *)

Section Pandas.
Context {A : Type} `{Dtype A}.

(** A cell holds a number or a text. *)
Inductive scalar :=
  | Num (x : A)
  | Str (s : string).

(** A Series is the list of its cells in row order; a DataFrame is the
    list of its named columns. *)
Definition Series := list scalar.
Definition DataFrame := list (string * Series).

(** What the first argument of the module's functions can be: the
    tests pass a table or a plain string. *)
Inductive pyobj :=
  | PyStr (s : string)
  | PyFrame (df : DataFrame).

(** [df[key]]: the first column of that name, [KeyError] without one. *)
Fixpoint frame_getitem (df : DataFrame) (key : string) : result Series :=
  match df with
  | [] => Raise (KeyError key)
  | (k, col) :: df => if decide (k = key) then Ok col else frame_getitem df key
  end.

(** [data[key]] with a string key: indexing a [str] by a [str] is a
    [TypeError]. *)
Definition getitem (data : pyobj) (key : string) : result Series :=
  match data with
  | PyStr _ => Raise TypeError
  | PyFrame df => frame_getitem df key
  end.

(** The cells of a column when all of them are numbers (a numeric
    column); and the texts of a column of text, in which a cell without
    a value is NaN. *)
Fixpoint numbers (col : Series) : option (list A) :=
  match col with
  | [] => Some []
  | Num x :: col => cons x <$> numbers col
  | Str _ :: _ => None
  end.

Fixpoint texts (col : Series) : option (list string) :=
  match col with
  | [] => Some []
  | Str s :: col => cons s <$> texts col
  | Num x :: col => if d_isnan x then texts col else None
  end.

(** Reductions skip NaN ([skipna=True] is the default). *)
Definition notna (xs : list A) : list A :=
  List.filter (λ x, negb (d_isnan x)) xs.

(** The step of numpy's reductions [max] and [min] on operands that
    are not NaN, [a > b ? a : b] and [a < b ? a : b]: of two operands
    that compare equal the later one is kept.  For [str], Python's [>=]
    and [<=]. *)
Definition maximum (a b : A) : A := if d_le a b then b else a.
Definition minimum (a b : A) : A := if d_le b a then b else a.
Definition str_maximum (a b : string) : string := if String.leb b a then a else b.
Definition str_minimum (a b : string) : string := if String.leb a b then a else b.

(** A reduction starts from the first element; without any element the
    result is NaN. *)
Definition reduce (f : A → A → A) (xs : list A) : A :=
  match xs with
  | [] => d_nan
  | x :: xs => fold_left f xs x
  end.

Definition str_reduce (f : string → string → string) (ss : list string) : scalar :=
  match ss with
  | [] => Num d_nan
  | s :: ss => Str (fold_left f ss s)
  end.

(** [Series.max()] and [Series.min()].  A numeric column gives the
    largest (smallest) value that is not NaN; a column of text gives the
    last (first) text in lexicographic order, cells without a value
    being skipped; comparing a text with a number is a [TypeError]. *)
Definition Series_max (col : Series) : result scalar :=
  match numbers col with
  | Some xs => Ok (Num (reduce maximum (notna xs)))
  | None =>
      match texts col with
      | Some ss => Ok (str_reduce str_maximum ss)
      | None => Raise TypeError
      end
  end.

Definition Series_min (col : Series) : result scalar :=
  match numbers col with
  | Some xs => Ok (Num (reduce minimum (notna xs)))
  | None =>
      match texts col with
      | Some ss => Ok (str_reduce str_minimum ss)
      | None => Raise TypeError
      end
  end.

(** numpy's [pairwise_sum] of a block of values.  Fewer than 8 values
    are added from left to right.  Up to 128 values are added in eight
    interleaved accumulators, which are then combined in pairs, and the
    values left over are added one by one.  A longer block is cut in two
    at a multiple of 8.  The recursion is on [fuel]; the length of the
    block is enough fuel. *)
Fixpoint unrolled (r xs : list A) (k : nat) : list A * list A :=
  match k with
  | O => (r, xs)
  | S k => unrolled (zip_with d_add r (take 8 xs)) (drop 8 xs) k
  end.

Definition combine8 (r : list A) : A :=
  match r with
  | [r0; r1; r2; r3; r4; r5; r6; r7] =>
      d_add (d_add (d_add r0 r1) (d_add r2 r3))
            (d_add (d_add r4 r5) (d_add r6 r7))
  | _ => d_nan
  end.

Fixpoint pairwise_sum (fuel : nat) (xs : list A) : A :=
  let n := length xs in
  if (n <? 8)%nat then fold_left d_add xs d_zero
  else if (n <=? 128)%nat then
    let '(r, rest) := unrolled (take 8 xs) (drop 8 xs) (n / 8 - 1) in
    fold_left d_add rest (combine8 r)
  else
    match fuel with
    | O => d_nan
    | S fuel =>
        let n2 := (n / 2 - (n / 2) mod 8)%nat in
        d_add (pairwise_sum fuel (take n2 xs)) (pairwise_sum fuel (drop n2 xs))
    end.

(** [Series.mean()]: pandas puts 0.0 in the place of every NaN, sums
    the column with numpy and divides by the number of values that are
    not NaN; the mean is NaN without any.  Text cannot be summed to a
    number: [TypeError]. *)
Definition nansum (xs : list A) : A :=
  pairwise_sum (length xs) ((λ x, if d_isnan x then d_zero else x) <$> xs).

Definition nanmean (xs : list A) : A :=
  match notna xs with
  | [] => d_nan
  | _ => d_div (nansum xs) (d_of_nat (length (notna xs)))
  end.

Definition Series_mean (col : Series) : result scalar :=
  match numbers col with
  | Some xs => Ok (Num (nanmean xs))
  | None => Raise TypeError
  end.

(** Python's [-] and [/] on two cells: defined on numbers only. *)
Definition scalar_sub (a b : scalar) : result scalar :=
  match a, b with
  | Num x, Num y => Ok (Num (d_sub x y))
  | _, _ => Raise TypeError
  end.

Definition scalar_div (a b : scalar) : result scalar :=
  match a, b with
  | Num x, Num y => Ok (Num (d_div x y))
  | _, _ => Raise TypeError
  end.

(** [col - s] and [col / s]: the scalar is broadcast over the rows. *)
Definition Series_sub (col : Series) (s : scalar) : result Series :=
  mapM (λ c, scalar_sub c s) col.

Definition Series_div (col : Series) (s : scalar) : result Series :=
  mapM (λ c, scalar_div c s) col.

(** [df - s]: the scalar is broadcast over every column of the table. *)
Definition frame_sub (df : DataFrame) (s : scalar) : result DataFrame :=
  mapM (λ kc, col ← Series_sub kc.2 s; Ok (kc.1, col)) df.

Definition pyobj_sub (data : pyobj) (s : scalar) : result pyobj :=
  match data with
  | PyStr _ => Raise TypeError
  | PyFrame df => PyFrame <$> frame_sub df s
  end.

(** [col.fillna(v)]: NaN cells become [v]. *)
Definition isna (c : scalar) : bool :=
  match c with
  | Num x => d_isnan x
  | Str _ => false
  end.

Definition fillna (col : Series) (v : A) : Series :=
  (λ c, if isna c then Num v else c) <$> col.

(** [dict[key]] *)
Definition dict_getitem {V} (d : gmap string V) (key : string) : result V :=
  match d !! key with
  | Some v => Ok v
  | None => Raise (KeyError key)
  end.

(** [pd.DataFrame.from_records(stats)] for a dict of dicts: one column
    per outer key, one row per inner key; the rows are the union of the
    inner keys and a column without a key gets NaN there.  The frame is
    read by [result[band][statistic]], which is how it is represented. *)
Local Abbreviation StatsFrame := (gmap string (gmap string scalar)).

Definition from_records (stats : gmap string (gmap string scalar)) : StatsFrame :=
  let index : gset string := ⋃ (dom <$> (map_to_list stats).*2) in
  (λ stat, stat ∪ gset_to_gmap (Num d_nan) index) <$> stats.

(** ** The module *)

(** [return data[mag_col].mean()] *)
Definition mean_mag (data : pyobj) (mag_col : string) : result scalar :=
  col ← getitem data mag_col; Series_mean col.

(** [return data[mag_col].max()] *)
Definition max_mag (data : pyobj) (mag_col : string) : result scalar :=
  col ← getitem data mag_col; Series_max col.

(** [return data[mag_col].min()] *)
Definition min_mag (data : pyobj) (mag_col : string) : result scalar :=
  col ← getitem data mag_col; Series_min col.

(** One turn of the loop of [calc_stats]: [lc[b]] is looked up for each
    of the three statistics, in the order max, mean, min. *)
Definition calc_stats_body (lc : gmap string pyobj) (mag_col : string)
    (stats : gmap string (gmap string scalar)) (b : string)
    : result (gmap string (gmap string scalar)) :=
  let stat : gmap string scalar := ∅ in
  t ← dict_getitem lc b; v ← max_mag t mag_col;
  let stat := <["max" := v]> stat in
  t ← dict_getitem lc b; v ← mean_mag t mag_col;
  let stat := <["mean" := v]> stat in
  t ← dict_getitem lc b; v ← min_mag t mag_col;
  let stat := <["min" := v]> stat in
  Ok (<[b := stat]> stats).

Definition calc_stats (lc : gmap string pyobj) (bands : list string)
    (mag_col : string) : result StatsFrame :=
  stats ← foldlM (calc_stats_body lc mag_col) ∅ bands;
  Ok (from_records stats).

(** [[
    min = min_mag(df,mag_col)
    max = max_mag((df-min),mag_col)
    lc = (df[mag_col]-min)/max
    lc = lc.fillna(0)
    return lc
    ]] *)
Definition normalize_lc (df : pyobj) (mag_col : string) : result Series :=
  min ← min_mag df mag_col;
  shifted ← pyobj_sub df min;
  max ← max_mag shifted mag_col;
  col ← getitem df mag_col;
  num ← Series_sub col min;
  lc ← Series_div num max;
  let lc := fillna lc d_zero in
  Ok lc.

End Pandas.

Arguments scalar A : clear implicits.
Arguments Series A : clear implicits.
Arguments DataFrame A : clear implicits.
Arguments pyobj A : clear implicits.

Abbreviation StatsFrame A := (gmap string (gmap string (scalar A))).

(** ** binary64 *)

Module Float64.

Definition prec : Z := 53.
Definition emax : Z := 1024.

Definition isnan (x : spec_float) : bool :=
  match x with
  | S754_nan => true
  | _ => false
  end.

(** The float nearest to an integer, and to a decimal [n / 10^k]: what
    Python reads from the literals [3] and [0.1]. *)
Definition of_Z (z : Z) : spec_float := binary_normalize prec emax z 0 false.
Definition of_decimal (n : Z) (k : nat) : spec_float :=
  SFdiv prec emax (of_Z n) (of_Z (10 ^ Z.of_nat k)).

#[global] Instance float64 : Dtype spec_float := {
  d_zero := S754_zero false;
  d_nan := S754_nan;
  d_isnan := isnan;
  d_add := SFadd prec emax;
  d_sub := SFsub prec emax;
  d_div := SFdiv prec emax;
  d_le := SFleb;
  d_of_nat n := of_Z (Z.of_nat n);
}.

(** A table with a band column of text beside its magnitudes. *)
Definition text_and_mag : pyobj spec_float :=
  PyFrame [("band", [Str "g"; Str "g"]);
           ("mag", [Num (of_Z 1); Num (of_Z 1)])].

(** A band whose magnitudes were read as text, because one of them is an
    upper limit, and a dictionary that holds this band alone. *)
Definition text_mag : pyobj spec_float :=
  PyFrame [("mag", [Str "17.2"; Str ">21.5"])].


(** The table of the test suite, and a dictionary with the band g. *)
Definition test_frame : DataFrame spec_float :=
  [("a", [Num (of_Z 1); Num (of_Z 7); Num (of_Z 3)]);
   ("b", [Num (of_Z 5); Num (of_Z 8); Num (of_Z 4)]);
   ("c", [Num (of_Z 3); Num (of_Z 9); Num (of_Z 1)])].

Definition test_table : pyobj spec_float := PyFrame test_frame.

Definition lc_g : gmap string (pyobj spec_float) := {["g" := test_table]}.

(** The band g with the band r beside it, whose table has a column of
    text and no column a. *)
Definition lc_g_r : gmap string (pyobj spec_float) := <["r" := text_mag]> lc_g.

(** The other two tables of the test suite. *)
Definition zero_table : pyobj spec_float :=
  PyFrame [("a", [Num (of_Z 0); Num (of_Z 0); Num (of_Z 0)]);
           ("b", [Num (of_Z 0); Num (of_Z 0); Num (of_Z 0)]);
           ("c", [Num (of_Z 0); Num (of_Z 0); Num (of_Z 0)])].

Definition negative_table : pyobj spec_float :=
  PyFrame [("a", [Num (of_Z (-7)); Num (of_Z (-4)); Num (of_Z (-1))]);
           ("b", [Num (of_Z (-7)); Num (of_Z (-3)); Num (of_Z (-5))]);
           ("c", [Num (of_Z (-3)); Num (of_Z (-1)); Num (of_Z (-3))])].


(** One table on the heap. *)
Definition test_heap : gmap positive (pyobj spec_float) := {[1%positive := test_table]}.

(** Three observations, the second one missing, and the two that are
    left without it. *)
Definition gap_frame : DataFrame spec_float :=
  [("mag", [Num (of_decimal 175 1); Num S754_nan; Num (of_Z 16)])].


(** Nine observations, the first one missing, and the eight that are
    left without it. *)
Definition eight_rows : DataFrame spec_float :=
  [("mag", [Num (of_decimal 1775 2); Num (of_decimal 1647 2);
            Num (of_decimal 2079 2); Num (of_decimal 1892 2);
            Num (of_decimal 1863 2); Num (of_decimal 1918 2);
            Num (of_decimal 1535 2); Num (of_decimal 1582 2)])].

Definition nine_rows : DataFrame spec_float :=
  [("mag", [Num S754_nan;
            Num (of_decimal 1775 2); Num (of_decimal 1647 2);
            Num (of_decimal 2079 2); Num (of_decimal 1892 2);
            Num (of_decimal 1863 2); Num (of_decimal 1918 2);
            Num (of_decimal 1535 2); Num (of_decimal 1582 2)])].

(** Three observations of magnitude 0.1. *)
Definition tenths : pyobj spec_float :=
  PyFrame [("mag", [Num (of_decimal 1 1); Num (of_decimal 1 1);
                    Num (of_decimal 1 1)])].

(** Three observations of the same magnitude 17.5, with their times. *)
Definition constant_mag : pyobj spec_float :=
  PyFrame [("mjd", [Num (of_Z 59000); Num (of_Z 59001); Num (of_Z 59002)]);
           ("mag", [Num (of_decimal 175 1); Num (of_decimal 175 1);
                    Num (of_decimal 175 1)])].

End Float64.

(** ** The test suite

    The test functions of [tests/test_models.py] with their parameters.
    A test passes when its assertion holds; an exception raised by the
    function under test fails it. *)

Module Tests.
Import Float64.

(** What a result is compared with: a number, or
    [pytest.approx(x, rel)]. *)
Inductive expected :=
  | Exactly (x : spec_float)
  | Approx (x rel : spec_float).

(** [actual == expected].  [pytest.approx] accepts a difference of at
    most [rel * abs(x)], or of 1e-12 when that is more. *)
Definition py_eq (actual : result (scalar spec_float)) (e : expected) : bool :=
  match actual, e with
  | Ok (Num a), Exactly x => SFeqb a x
  | Ok (Num a), Approx x rel =>
      let tolerance := SFmul prec emax rel (SFabs x) in
      let tolerance :=
        if SFleb tolerance (of_decimal 1 12) then of_decimal 1 12 else tolerance in
      SFleb (SFabs (SFsub prec emax a x)) tolerance
  | _, _ => false
  end.

Definition max_mag_params : list (pyobj spec_float * string * expected) :=
  [(test_table, "a", Exactly (of_Z 7));
   (zero_table, "b", Exactly (of_Z 0))].

Definition mean_mag_params : list (pyobj spec_float * string * expected) :=
  [(test_table, "a", Approx (of_decimal 366 2) (of_decimal 1 2));
   (zero_table, "b", Exactly (of_Z 0))].

Definition min_mag_params : list (pyobj spec_float * string * expected) :=
  [(test_table, "a", Exactly (of_Z 1));
   (zero_table, "b", Exactly (of_Z 0));
   (negative_table, "b", Exactly (of_Z (-7)))].

(** [assert max_mag(test_df, test_colname) == expected], and the same
    for the other two reducers. *)
Definition max_mag_test (case : pyobj spec_float * string * expected) : bool :=
  let '(test_df, test_colname, expected) := case in
  py_eq (max_mag test_df test_colname) expected.

Definition mean_mag_test (case : pyobj spec_float * string * expected) : bool :=
  let '(test_df, test_colname, expected) := case in
  py_eq (mean_mag test_df test_colname) expected.

Definition min_mag_test (case : pyobj spec_float * string * expected) : bool :=
  let '(test_df, test_colname, expected) := case in
  py_eq (min_mag test_df test_colname) expected.

(** [with pytest.raises(TypeError): max_mag('string', 'b')] *)
Definition max_mag_strings_test : bool :=
  let test_input_colname := "b" in
  match max_mag (PyStr "string" : pyobj spec_float) test_input_colname with
  | Raise TypeError => true
  | _ => false
  end.

End Tests.

(** ** int64 beside binary64 *)

(** The numbers of a table as numpy holds them: a column of integers
    is [int64], one with a fraction or a NaN is [float64].  A column
    holds cells of one kind. *)
Module Int64.
Import Float64.

Inductive cell :=
  | I64 (z : Z)
  | F64 (f : spec_float).

(** Two's complement: integer arithmetic wraps around silently. *)
Definition wrap (z : Z) : Z := (z + 2 ^ 63) mod 2 ^ 64 - 2 ^ 63.

(** The conversion of an operand where numpy computes in binary64: when
    the other operand is a float, in every quotient ([/] is true
    division) and in the sum of a mean. *)
Definition to_float (c : cell) : spec_float :=
  match c with
  | I64 z => of_Z z
  | F64 f => f
  end.

Definition isnan (c : cell) : bool :=
  match c with
  | I64 _ => false
  | F64 f => Float64.isnan f
  end.

(** The addition of [Series.mean], which sums in binary64. *)
Definition add (x y : cell) : cell :=
  F64 (SFadd prec emax (to_float x) (to_float y)).

Definition sub (x y : cell) : cell :=
  match x, y with
  | I64 a, I64 b => I64 (wrap (a - b))
  | _, _ => F64 (SFsub prec emax (to_float x) (to_float y))
  end.

Definition div (x y : cell) : cell :=
  F64 (SFdiv prec emax (to_float x) (to_float y)).

Definition le (x y : cell) : bool :=
  match x, y with
  | I64 a, I64 b => (a <=? b)%Z
  | _, _ => SFleb (to_float x) (to_float y)
  end.

#[global] Instance int64 : Dtype cell := {
  d_zero := F64 (S754_zero false);
  d_nan := F64 S754_nan;
  d_isnan := isnan;
  d_add := add;
  d_sub := sub;
  d_div := div;
  d_le := le;
  d_of_nat n := F64 (of_Z (Z.of_nat n));
}.

(** A column of integers. *)
Definition ints (zs : list Z) : list cell := I64 <$> zs.

(** Two observations at the ends of the range of [int64]. *)
Definition full_range : pyobj cell :=
  PyFrame [("mag", [Num (I64 (- 2 ^ 63)); Num (I64 (2 ^ 63 - 1))])].

(** Three observations above 2^53, where binary64 no longer holds
    every integer. *)
Definition above_2_53 : pyobj cell :=
  PyFrame [("mag", [Num (I64 (2 ^ 53)); Num (I64 (2 ^ 53 + 1));
                    Num (I64 (2 ^ 53 + 2))])].

End Int64.

(** ** Arithmetic without rounding *)

Module Exact.

Local Open Scope Qc_scope.

(** Rationals with the two infinities and NaN: the values of binary64
    arithmetic when no operation rounds or overflows. *)
Inductive xnum :=
  | XFin (q : Qc)
  | XInf (neg : bool)
  | XNaN.

Definition isnan (x : xnum) : bool :=
  match x with
  | XNaN => true
  | _ => false
  end.

Definition opp (x : xnum) : xnum :=
  match x with
  | XFin q => XFin (- q)
  | XInf s => XInf (negb s)
  | XNaN => XNaN
  end.

Definition add (x y : xnum) : xnum :=
  match x, y with
  | XNaN, _ | _, XNaN => XNaN
  | XInf sx, XInf sy => if Bool.eqb sx sy then x else XNaN
  | XInf _, _ => x
  | _, XInf _ => y
  | XFin p, XFin q => XFin (p + q)
  end.

Definition sub (x y : xnum) : xnum := add x (opp y).

Definition negative (q : Qc) : bool := bool_decide (q < 0).

Definition div (x y : xnum) : xnum :=
  match x, y with
  | XNaN, _ | _, XNaN => XNaN
  | XInf _, XInf _ => XNaN
  | XInf sx, XFin q => XInf (xorb sx (negative q))
  | XFin _, XInf _ => XFin 0
  | XFin p, XFin q =>
      if decide (q = 0) then
        if decide (p = 0) then XNaN else XInf (negative p)
      else XFin (p / q)
  end.

Definition le (x y : xnum) : bool :=
  match x, y with
  | XNaN, _ | _, XNaN => false
  | XInf sx, XInf sy => implb sy sx
  | XInf sx, XFin _ => sx
  | XFin _, XInf sy => negb sy
  | XFin p, XFin q => bool_decide (p ≤ q)
  end.

Definition of_Z (z : Z) : xnum := XFin (Qc_of_Z z).
Definition of_decimal (n : Z) (k : nat) : xnum :=
  XFin (Q2Qc (n # Pos.of_nat (10 ^ k)%nat)).

#[global] Instance exact : Dtype xnum := {
  d_zero := XFin 0;
  d_nan := XNaN;
  d_isnan := isnan;
  d_add := add;
  d_sub := sub;
  d_div := div;
  d_le := le;
  d_of_nat n := of_Z (Z.of_nat n);
}.

Definition finite (x : xnum) : Prop :=
  match x with
  | XFin _ => True
  | _ => False
  end.

(** The place of a value between the bounds [lo] and [hi] of its
    column, as a fraction of the range; a row without a value gets 0. *)
Definition rescale (lo hi : Qc) (x : xnum) : xnum :=
  match x with
  | XFin q => XFin ((q - lo) / (hi - lo))
  | _ => XFin 0
  end.


Definition test_frame : DataFrame xnum :=
  [("a", [Num (of_Z 1); Num (of_Z 7); Num (of_Z 3)]);
   ("b", [Num (of_Z 5); Num (of_Z 8); Num (of_Z 4)]);
   ("c", [Num (of_Z 3); Num (of_Z 9); Num (of_Z 1)])].

Definition test_table : pyobj xnum := PyFrame test_frame.

(** The same observations with the rows in reverse order. *)
Definition reversed_frame : DataFrame xnum :=
  [("a", [Num (of_Z 3); Num (of_Z 7); Num (of_Z 1)]);
   ("b", [Num (of_Z 4); Num (of_Z 8); Num (of_Z 5)]);
   ("c", [Num (of_Z 1); Num (of_Z 9); Num (of_Z 3)])].

(** The same observations one magnitude fainter. *)
Definition fainter_frame : DataFrame xnum :=
  [("a", [Num (of_Z 2); Num (of_Z 8); Num (of_Z 4)]);
   ("b", [Num (of_Z 6); Num (of_Z 9); Num (of_Z 5)]);
   ("c", [Num (of_Z 4); Num (of_Z 10); Num (of_Z 2)])].

Definition tenths : pyobj xnum :=
  PyFrame [("mag", [Num (of_decimal 1 1); Num (of_decimal 1 1);
                    Num (of_decimal 1 1)])].

End Exact.

(** ** The normaliser in the words of the specification *)

Section Specification.
Context {A : Type} `{Dtype A}.

(** Step 4 on one row: subtract [minVal], divide by [maxVal], and remap
    an undefined quotient to 0.0. *)
Definition normalize_row (minVal maxVal c : scalar A) : result (scalar A) :=
  d ← scalar_sub c minVal;
  q ← scalar_div d maxVal;
  Ok (if isna q then Num d_zero else q).

(** The two-step computation: the minimum of the column, the table with
    the minimum subtracted everywhere, the maximum of the magnitude
    column of that table, then step 4 row by row. *)
Definition normalize_two_step (df : pyobj A) (mag_col : string) : result (Series A) :=
  minVal ← min_mag df mag_col;
  shifted ← pyobj_sub df minVal;
  maxVal ← max_mag shifted mag_col;
  column ← getitem df mag_col;
  mapM (normalize_row minVal maxVal) column.

(** The single-pass formula [(col - min) / (max - min)], which never
    builds a shifted table. *)
Definition normalize_single_pass (df : pyobj A) (mag_col : string) : result (Series A) :=
  minVal ← min_mag df mag_col;
  maxVal ← max_mag df mag_col;
  range ← scalar_sub maxVal minVal;
  column ← getitem df mag_col;
  mapM (normalize_row minVal range) column.

(** What [normalize_lc] computes on a numeric column [xs]: the column
    shifted by its minimum, the two denominators the specification
    compares, and the normalised values. *)
Definition fill (q : A) : A := if d_isnan q then d_zero else q.

Definition shifted (xs : list A) (lo : A) : list A := (λ x, d_sub x lo) <$> xs.

Definition two_step_range (xs : list A) : A :=
  reduce maximum (notna (shifted xs (reduce minimum (notna xs)))).

Definition single_pass_range (xs : list A) : A :=
  d_sub (reduce maximum (notna xs)) (reduce minimum (notna xs)).

Definition normalized (xs : list A) : list A :=
  let lo := reduce minimum (notna xs) in
  let range := two_step_range xs in
  (λ x, fill (d_div (d_sub x lo) range)) <$> xs.

(** The minimum and the maximum of a column, in words: the least
    (greatest) of its values that are not NaN, and NaN when it has no
    such value. *)
Definition least (xs : list A) (lo : A) : Prop :=
  (lo ∈ xs ∧ d_isnan lo = false ∧
   ∀ x, x ∈ xs → d_isnan x = false → d_le lo x = true) ∨
  ((∀ x, x ∈ xs → d_isnan x = true) ∧ lo = d_nan).

Definition greatest (xs : list A) (hi : A) : Prop :=
  (hi ∈ xs ∧ d_isnan hi = false ∧
   ∀ x, x ∈ xs → d_isnan x = false → d_le x hi = true) ∨
  ((∀ x, x ∈ xs → d_isnan x = true) ∧ hi = d_nan).

(** A table all of whose cells are numbers. *)
Definition numeric_series (col : Series A) : Prop := is_Some (numbers col).
Definition numeric_frame (df : DataFrame A) : Prop :=
  Forall (λ kc, numeric_series kc.2) df.

(** Two numbers that [<=] does not tell apart: equal in value, as the
    two zeros of binary64 are. *)
Definition same_order (a b : A) : Prop := d_le a b = true ∧ d_le b a = true.


(** The entry of a statistics frame for one band, and the three
    statistics of the band [b] of [lc] that go into it. *)
Definition stat_entry (mx mn mi : scalar A) : gmap string (scalar A) :=
  <["min" := mi]> (<["mean" := mn]> (<["max" := mx]> ∅)).

Definition band_stat (lc : gmap string (pyobj A)) (mag_col b : string)
    : result (gmap string (scalar A)) :=
  t ← dict_getitem lc b;
  mx ← max_mag t mag_col;
  mn ← mean_mag t mag_col;
  mi ← min_mag t mag_col;
  Ok (stat_entry mx mn mi).

End Specification.

(** ** Tables as objects on the heap

    Python passes tables by reference.  Here the functions of the module
    run on a heap of objects; [df - min] allocates the shifted table.  A
    computation is stuck ([None]) on a reference to nothing, which a Python
    program cannot hold. *)

Module Heap.

Abbreviation loc := positive.
Abbreviation heap A := (gmap positive (pyobj A)).

Section Heap.
Context {A : Type} `{Dtype A}.

Local Abbreviation pure_getitem := getitem.
Local Abbreviation pure_sub := pyobj_sub.

Definition M (X : Type) : Type := heap A → option (result X * heap A).

#[global] Instance M_ret : MRet M := λ X x h, Some (Ok x, h).
#[global] Instance M_bind : MBind M := λ X Y f m h,
  match m h with
  | Some (Ok x, h') => f x h'
  | Some (Raise e, h') => Some (Raise e, h')
  | None => None
  end.

Definition lift {X} (r : result X) : M X := λ h, Some (r, h).

Definition deref (l : loc) : M (pyobj A) := λ h,
  match h !! l with
  | Some o => Some (Ok o, h)
  | None => None
  end.

Definition alloc (o : pyobj A) : M loc := λ h,
  let l := fresh (dom h) in Some (Ok l, <[l := o]> h).

Definition getitem (data : loc) (key : string) : M (Series A) :=
  o ← deref data; lift (pure_getitem o key).

(** [data - s] builds a new object. *)
Definition sub (data : loc) (s : scalar A) : M loc :=
  o ← deref data; o' ← lift (pure_sub o s); alloc o'.

Definition mean_mag (data : loc) (mag_col : string) : M (scalar A) :=
  col ← getitem data mag_col; lift (Series_mean col).

Definition max_mag (data : loc) (mag_col : string) : M (scalar A) :=
  col ← getitem data mag_col; lift (Series_max col).

Definition min_mag (data : loc) (mag_col : string) : M (scalar A) :=
  col ← getitem data mag_col; lift (Series_min col).

Definition normalize_lc (df : loc) (mag_col : string) : M (Series A) :=
  min ← min_mag df mag_col;
  shifted ← sub df min;
  max ← max_mag shifted mag_col;
  col ← getitem df mag_col;
  num ← lift (Series_sub col min);
  lc ← lift (Series_div num max);
  let lc := fillna lc d_zero in
  mret lc.

End Heap.

Arguments M A X : clear implicits.

End Heap.

(** * Properties *)

(** ** The test suite

    The cases of [tests/test_models.py], evaluated in binary64. *)

Example test_max_mag :
  max_mag Float64.test_table "a" = Ok (Num (Float64.of_Z 7)) ∧
  max_mag Float64.zero_table "b" = Ok (Num (Float64.of_Z 0)).
Proof. split; reflexivity. Qed.

Example test_mean_mag :
  mean_mag Float64.test_table "a"
    = Ok (Num (SFdiv Float64.prec Float64.emax (Float64.of_Z 11) (Float64.of_Z 3))) ∧
  mean_mag Float64.zero_table "b" = Ok (Num (Float64.of_Z 0)).
Proof. split; vm_compute; reflexivity. Qed.

Example test_min_mag :
  min_mag Float64.test_table "a" = Ok (Num (Float64.of_Z 1)) ∧
  min_mag Float64.zero_table "b" = Ok (Num (Float64.of_Z 0)) ∧
  min_mag Float64.negative_table "b" = Ok (Num (Float64.of_Z (-7))).
Proof. repeat split; reflexivity. Qed.

Example test_max_mag_strings :
  max_mag (PyStr "string" : pyobj spec_float) "b" = Raise TypeError.
Proof. reflexivity. Qed.

(** ** The result monad *)

Lemma bind_Ok {X Y} (f : X → result Y) (m : result X) (y : Y) :
  m ≫= f = Ok y ↔ ∃ x, m = Ok x ∧ f x = Ok y.
Proof.
  destruct m as [x|e]; simpl.
  - split; [eauto|]. intros (x' & Hm & Hf). by injection Hm as ->.
  - split; [done|]. by intros (x' & Hm & Hf).
Qed.

Lemma bind_Raise {X Y} (f : X → result Y) (m : result X) (e : exn) :
  m ≫= f = Raise e ↔ m = Raise e ∨ ∃ x, m = Ok x ∧ f x = Raise e.
Proof.
  destruct m as [x|e']; simpl.
  - split; [eauto|]. intros [Hm|(x' & Hm & Hf)]; [done|]. by injection Hm as ->.
  - split; [intros [= ->]; by left|]. by intros [[= ->]|(x' & Hm & Hf)].
Qed.

Lemma type_errors_cases {X} (r : result X) :
  type_errors r → (∃ x, r = Ok x) ∨ r = Raise TypeError.
Proof.
  destruct r as [x|e]; [eauto|].
  intros Hr. right. by rewrite (Hr e eq_refl).
Qed.

Lemma type_errors_bind {X Y} (f : X → result Y) (m : result X) :
  type_errors m → (∀ x, type_errors (f x)) → type_errors (m ≫= f).
Proof.
  intros Hm Hf e [He|(x & _ & He)]%bind_Raise; [by apply Hm|by apply (Hf x)].
Qed.

Lemma type_errors_mapM {X Y} (f : X → result Y) (l : list X) :
  (∀ x, type_errors (f x)) → type_errors (mapM f l).
Proof.
  intros Hf. induction l as [|x l IH]; [done|].
  simpl. apply type_errors_bind; [done|]. intros y.
  apply type_errors_bind; [done|]. by intros k e.
Qed.

Lemma mapM_Ok_length {X Y} (f : X → result Y) (l : list X) (k : list Y) :
  mapM f l = Ok k → length k = length l.
Proof.
  revert k. induction l as [|x l IH]; intros k; simpl.
  - by intros [= <-].
  - intros (y & _ & (k' & Hk' & [= <-])%bind_Ok)%bind_Ok.
    simpl. by rewrite (IH k').
Qed.

Lemma mapM_Ok_lookup {X Y} (f : X → result Y) (l : list X) (k : list Y) i x :
  mapM f l = Ok k → l !! i = Some x → ∃ y, k !! i = Some y ∧ f x = Ok y.
Proof.
  revert k i. induction l as [|x' l IH]; intros k i; simpl; [done|].
  intros (y & Hy & (k' & Hk' & [= <-])%bind_Ok)%bind_Ok.
  destruct i as [|i]; simpl.
  - intros [= ->]. eauto.
  - by apply IH.
Qed.

Lemma mapM_total {X Y} (f : X → result Y) (g : X → Y) (l : list X) :
  Forall (λ x, f x = Ok (g x)) l → mapM f l = Ok (g <$> l).
Proof.
  induction 1 as [|x l Hx _ IH]; [done|].
  simpl. by rewrite Hx, IH.
Qed.

(** ** Columns and tables *)

Section Columns.
Context {A : Type} `{Dtype A}.
Implicit Types (col : Series A) (df : DataFrame A) (xs : list A) (s : scalar A).

Lemma numbers_Some col xs : numbers col = Some xs ↔ col = Num <$> xs.
Proof.
  revert xs. induction col as [|[x|t] col IH]; intros xs; simpl.
  - split; [by intros [= <-]|]. by destruct xs.
  - destruct (numbers col) as [ys|] eqn:E; simpl.
    + split.
      * intros [= <-]. simpl. f_equal. by apply IH.
      * destruct xs as [|x' xs]; [done|]. intros [= -> Hc].
        apply IH in Hc. by injection Hc as ->.
    + split; [done|]. destruct xs as [|x' xs]; [done|]. intros [= -> Hc].
      by apply IH in Hc.
  - split; [done|]. by destruct xs.
Qed.

Lemma numbers_fmap xs : numbers (Num <$> xs) = Some xs.
Proof. by apply numbers_Some. Qed.

(** A column with a text is not numeric. *)
Lemma numbers_None col : (∃ t, Str t ∈ col) → numbers col = None.
Proof.
  intros [t Ht]. induction col as [|[x|t'] col IH]; simpl.
  - by apply elem_of_nil in Ht.
  - apply elem_of_cons in Ht as [[=]|Ht]. by rewrite IH.
  - done.
Qed.

Lemma texts_fmap (ss : list string) : texts (Str <$> ss : Series A) = Some ss.
Proof.
  induction ss as [|t ss IH]; [done|].
  change (cons t <$> texts (Str <$> ss : Series A) = Some (t :: ss)).
  by rewrite IH.
Qed.

(** A column of text: every cell is a text or NaN. *)
Lemma texts_Some col ss :
  texts col = Some ss →
  (∀ t, Str t ∈ col ↔ t ∈ ss) ∧ (∀ x, Num x ∈ col → d_isnan x = true).
Proof.
  revert ss. induction col as [|[x|t] col IH]; intros ss; simpl.
  - intros [= <-]. split; [|by intros x ?%elem_of_nil].
    intros t. split; by intros ?%elem_of_nil.
  - destruct (d_isnan x) eqn:Hx; [|done]. intros [Ht Hn]%IH. split.
    + intros t. rewrite <-Ht, elem_of_cons. split; [by intros [[=]|]|by right].
    + intros x' [[= ->]|Hx']%elem_of_cons; [done|by apply Hn].
  - destruct (texts col) as [ys|] eqn:E; simpl; [|done].
    intros [= <-]. destruct (IH ys eq_refl) as [Ht Hn]. split.
    + intros t'. rewrite !elem_of_cons, <-Ht. split.
      * intros [[= ->]|?]; auto.
      * intros [->|?]; auto.
    + intros x' [[=]|Hx']%elem_of_cons. by apply Hn.
Qed.

(** A column that is not one of text holds a number that is not NaN. *)
Lemma texts_None col :
  texts col = None ↔ ∃ x, Num x ∈ col ∧ d_isnan x = false.
Proof.
  induction col as [|[x|t] col IH]; simpl.
  - split; [done|]. by intros (x & ?%elem_of_nil & _).
  - destruct (d_isnan x) eqn:Hx.
    + rewrite IH. split.
      * intros (x' & Hx' & Hna). exists x'. split; [by right|done].
      * intros (x' & [[= ->]|Hx']%elem_of_cons & Hna); [congruence|by exists x'].
    + split; [|done]. intros _. exists x. split; [by left|done].
  - destruct (texts col) as [ys|] eqn:E; simpl.
    + split; [done|]. intros (x & [[=]|Hx]%elem_of_cons & Hna).
      assert (Some ys = None) as Hcontra by (apply IH; by exists x). done.
    + split; [|done]. intros _. destruct (proj1 IH eq_refl) as (x & Hx & Hna).
      exists x. split; [by right|done].
Qed.

Lemma scalar_sub_type_errors (a b : scalar A) : type_errors (scalar_sub a b).
Proof. by destruct a, b; intros e; simpl; intros [= <-]. Qed.

Lemma scalar_div_type_errors (a b : scalar A) : type_errors (scalar_div a b).
Proof. by destruct a, b; intros e; simpl; intros [= <-]. Qed.

Lemma Series_sub_type_errors col s : type_errors (Series_sub col s).
Proof. apply type_errors_mapM. intros c. apply scalar_sub_type_errors. Qed.

Lemma Series_div_type_errors col s : type_errors (Series_div col s).
Proof. apply type_errors_mapM. intros c. apply scalar_div_type_errors. Qed.

Lemma normalize_row_type_errors (lo hi c : scalar A) :
  type_errors (normalize_row lo hi c).
Proof.
  apply type_errors_bind; [apply scalar_sub_type_errors|]. intros d.
  apply type_errors_bind; [apply scalar_div_type_errors|]. by intros q e.
Qed.

(** The three passes of the source over the column (subtract, divide,
    fill) agree with one pass that treats each row in turn. *)
Lemma three_passes_fused (lo hi : scalar A) col :
  (num ← Series_sub col lo; lc ← Series_div num hi; Ok (fillna lc d_zero))
  = mapM (normalize_row lo hi) col.
Proof.
  induction col as [|c col IH]; [done|].
  cbn [mapM]. rewrite <-IH. clear IH.
  unfold Series_sub, Series_div, normalize_row. cbn [mapM].
  destruct (type_errors_cases _ (scalar_sub_type_errors c lo)) as [[d ->]| ->];
    [|done].
  destruct (type_errors_cases _ (Series_sub_type_errors col lo)) as [[k Hk]|Hk];
    unfold Series_sub in Hk; rewrite Hk; simpl.
  - destruct (type_errors_cases _ (scalar_div_type_errors d hi)) as [[q ->]| ->];
      [|done].
    simpl.
    by destruct (type_errors_cases _ (Series_div_type_errors k hi))
      as [[k' Hk']|Hk']; unfold Series_div in Hk'; rewrite Hk'.
  - by destruct (type_errors_cases _ (scalar_div_type_errors d hi))
      as [[q ->]| ->].
Qed.

End Columns.

(** ** Tables of numbers *)

Section Numeric.
Context {A : Type} `{Dtype A}.
Implicit Types (col : Series A) (df : DataFrame A) (xs : list A).

Lemma Series_sub_numbers xs (lo : A) :
  Series_sub (Num <$> xs) (Num lo) = Ok (Num <$> shifted xs lo).
Proof.
  unfold Series_sub. induction xs as [|x xs IH]; [done|].
  cbn [fmap list_fmap mapM]. rewrite IH. done.
Qed.

Lemma Series_div_numbers xs (d : A) :
  Series_div (Num <$> xs) (Num d) = Ok (Num <$> ((λ x, d_div x d) <$> xs)).
Proof.
  unfold Series_div. induction xs as [|x xs IH]; [done|].
  cbn [fmap list_fmap mapM]. rewrite IH. done.
Qed.

Lemma fillna_numbers xs (v : A) :
  fillna (Num <$> xs) v = Num <$> ((λ x, if d_isnan x then v else x) <$> xs).
Proof.
  unfold fillna. induction xs as [|x xs IH]; [done|].
  cbn [fmap list_fmap] in *. rewrite IH. by destruct (d_isnan x) eqn:E; simpl; rewrite E.
Qed.

Lemma frame_sub_numeric df (lo : A) :
  numeric_frame df →
  ∃ df', frame_sub df (Num lo) = Ok df' ∧
    ∀ c xs, frame_getitem df c = Ok (Num <$> xs) →
            frame_getitem df' c = Ok (Num <$> shifted xs lo).
Proof.
  induction 1 as [|[k col] df [ys Hys] _ (df' & Hdf' & Hget)].
  - exists []. split; [done|]. by intros c xs.
  - apply numbers_Some in Hys. simpl in Hys. subst col.
    exists ((k, Num <$> shifted ys lo) :: df'). split.
    + unfold frame_sub in *. cbn [mapM]. simpl.
      rewrite Series_sub_numbers. simpl. by rewrite Hdf'.
    + intros c xs. simpl. case_decide.
      * intros [= Hxs]. apply (f_equal numbers) in Hxs.
        rewrite !numbers_fmap in Hxs. by injection Hxs as ->.
      * apply Hget.
Qed.

Lemma frame_sub_type_errors df (s : scalar A) : type_errors (frame_sub df s).
Proof.
  apply type_errors_mapM. intros [k col]. apply type_errors_bind.
  - apply Series_sub_type_errors.
  - by intros col' e.
Qed.

(** A cell of text anywhere in the table makes [df - s] fail. *)
Lemma Series_sub_text col (s : scalar A) :
  ¬ numeric_series col → Series_sub col s = Raise TypeError.
Proof.
  unfold numeric_series, Series_sub.
  induction col as [|[x|t] col IH]; cbn [mapM numbers]; intros Hn.
  - destruct Hn. by eexists.
  - destruct (type_errors_cases _ (scalar_sub_type_errors (Num x) s))
      as [[d ->]| ->]; [|done].
    simpl. rewrite IH; [done|].
    intros [ys Hys]. apply Hn. rewrite Hys. by eexists.
  - done.
Qed.

Lemma frame_sub_text df (s : scalar A) :
  ¬ numeric_frame df → frame_sub df s = Raise TypeError.
Proof.
  unfold numeric_frame, frame_sub.
  induction df as [|[k col] df IH]; cbn -[Series_sub]; intros Hn.
  - by destruct Hn.
  - destruct (numbers col) as [ys|] eqn:Hcol.
    + destruct (type_errors_cases _ (Series_sub_type_errors col s))
        as [[d ->]| ->]; [|done].
      cbn -[Series_sub] in *. rewrite IH; [done|].
      intros Hdf. apply Hn. constructor; [|done].
      unfold numeric_series. simpl. by rewrite Hcol.
    + rewrite Series_sub_text; [done|].
      unfold numeric_series. rewrite Hcol. by intros [? ?].
Qed.

(** On a table of numbers [normalize_lc] returns the normalised column. *)
Lemma normalize_lc_numeric df c xs :
  numeric_frame df → frame_getitem df c = Ok (Num <$> xs) →
  normalize_lc (PyFrame df) c = Ok (Num <$> normalized xs).
Proof.
  intros Hdf Hc.
  destruct (frame_sub_numeric df (reduce minimum (notna xs)) Hdf)
    as (df' & Hdf' & Hget).
  unfold normalize_lc, min_mag, max_mag, Series_min, Series_max. simpl.
  rewrite Hc. simpl. rewrite numbers_fmap. simpl.
  rewrite Hdf'. simpl. rewrite (Hget c xs Hc). simpl.
  rewrite numbers_fmap. simpl.
  rewrite Series_sub_numbers. simpl. rewrite Series_div_numbers. simpl.
  rewrite fillna_numbers. unfold normalized, two_step_range, shifted, fill.
  by rewrite <-!list_fmap_compose.
Qed.

(** With a cell of text somewhere in the table it returns nothing. *)
Lemma normalize_lc_text df c :
  ¬ numeric_frame df → is_Raise (normalize_lc (PyFrame df) c).
Proof.
  intros Hdf. unfold normalize_lc.
  destruct (min_mag (PyFrame df) c) as [lo|e]; simpl; [|by eexists].
  rewrite frame_sub_text by done. by eexists.
Qed.

End Numeric.

(** The three whole-column passes of [normalize_lc] are the row by row
    computation of the specification. *)
Lemma normalize_lc_fused {A : Type} `{Dtype A} (df : pyobj A) (mag_col : string) :
  normalize_lc df mag_col = normalize_two_step df mag_col.
Proof.
  unfold normalize_lc, normalize_two_step.
  destruct (min_mag df mag_col) as [lo|e]; simpl; [|done].
  destruct (pyobj_sub df lo) as [sh|e]; simpl; [|done].
  destruct (max_mag sh mag_col) as [hi|e]; simpl; [|done].
  destruct (getitem df mag_col) as [col|e]; simpl; [|done].
  apply three_passes_fused.
Qed.

(** ** The laws of the two element types *)

Module Float64Facts.
Import Float64.

(** Subtracting a finite float from itself: after alignment the integer
    difference of the mantissas is zero. *)
Lemma SFsub_diag_finite s m e :
  SFsub prec emax (S754_finite s m e) (S754_finite s m e) = S754_zero false.
Proof.
  unfold SFsub. rewrite Z.min_id.
  unfold shl_align. by rewrite Z.sub_diag.
Qed.

#[global] Instance float64_nan_laws : NanLaws spec_float.
Proof.
  split.
  - done.
  - done.
  - by intros [] [].
  - by intros [] [].
  - by intros [] [].
  - by intros [] [].
  - intros [[]|[]| |s m e]; simpl; auto.
    right. apply SFsub_diag_finite.
  - done.
Qed.

Lemma SFleb_finite_pos m1 e1 m2 e2 :
  SFleb (S754_finite false m1 e1) (S754_finite false m2 e2) = true
  ↔ (e1 < e2 ∨ e1 = e2 ∧ (m1 ≤ m2)%positive)%Z.
Proof.
  unfold SFleb, SFcompare. change (Pos.compare_cont Eq m1 m2) with (m1 ?= m2)%positive.
  destruct (Z.compare_spec e1 e2); [|split; [auto|done] |split; [done|lia]].
  destruct (Pos.compare_spec m1 m2); split; try done; try lia; auto with lia.
Qed.

Lemma SFleb_finite_neg m1 e1 m2 e2 :
  SFleb (S754_finite true m1 e1) (S754_finite true m2 e2) = true
  ↔ (e2 < e1 ∨ e1 = e2 ∧ (m2 ≤ m1)%positive)%Z.
Proof.
  unfold SFleb, SFcompare. change (Pos.compare_cont Eq m1 m2) with (m1 ?= m2)%positive.
  destruct (Z.compare_spec e1 e2); [|split; [done|lia] |split; [auto|done]].
  destruct (Pos.compare_spec m1 m2); simpl; split; try done; try lia; auto with lia.
Qed.

#[global] Instance float64_order_laws : OrderLaws spec_float.
Proof.
  split; change (@d_le spec_float float64) with SFleb.
  - intros [[]|[]| |[] m1 e1] [[]|[]| |[] m2 e2] Hx Hy; try done;
      first [ by left | by right | idtac ].
    + rewrite !SFleb_finite_neg. lia.
    + rewrite !SFleb_finite_pos. lia.
  - intros [[]|[]| |[] m1 e1] [[]|[]| |[] m2 e2] [[]|[]| |[] m3 e3];
      try done.
    + rewrite !SFleb_finite_neg. lia.
    + rewrite !SFleb_finite_pos. lia.
Qed.

End Float64Facts.

Module ExactFacts.
Import Exact.
Local Open Scope Qc_scope.

Lemma isnan_XNaN x : isnan x = true → x = XNaN.
Proof. by destruct x. Qed.

Lemma le_XFin p q : le (XFin p) (XFin q) = true ↔ p ≤ q.
Proof. simpl. apply bool_decide_eq_true. Qed.

#[global] Instance exact_nan_laws : NanLaws xnum.
Proof.
  split.
  - done.
  - done.
  - by intros [] [].
  - by intros [] [].
  - by intros [] [].
  - by intros [] [].
  - intros [q|[]|]; simpl; auto.
    right. unfold sub, add, opp. f_equal. apply Qcplus_opp_r.
  - simpl. by repeat case_decide.
Qed.

#[global] Instance exact_order_laws : OrderLaws xnum.
Proof.
  split; change (@d_le xnum exact) with le.
  - intros [p|[]|] [q|[]|] Hx Hy; try done;
      first [ by left | by right | idtac ].
    rewrite !le_XFin. apply (total Qcle).
  - intros [p|[]|] [q|[]|] [r|[]|]; try done.
    rewrite !le_XFin. apply Qcle_trans.
Qed.

Lemma le_antisym x y : le x y = true → le y x = true → x = y.
Proof.
  destruct x as [p|[]|], y as [q|[]|]; try done.
  rewrite !le_XFin. intros Hpq Hqp. f_equal. by apply Qcle_antisym.
Qed.

End ExactFacts.

(** ** Minimum and maximum of a column *)

(** A left fold with a step that keeps the smaller of its two operands,
    for any total preorder given as a boolean test on the values that
    satisfy [P]: the result is one of the values and lies below all of
    them.  The step may keep either operand on a tie. *)
Section Extremum.
Context {X : Type} (le : X → X → bool) (P : X → Prop).
Hypothesis le_total : ∀ x y, P x → P y → le x y = true ∨ le y x = true.
Hypothesis le_trans : ∀ x y z, le x y = true → le y z = true → le x z = true.

Lemma fold_left_selects (f : X → X → X) (vs : list X) (x : X) :
  (∀ a b, P a → P b →
     (f a b = a ∨ f a b = b) ∧ le (f a b) a = true ∧ le (f a b) b = true) →
  Forall P (x :: vs) →
  fold_left f vs x ∈ x :: vs ∧
  ∀ y, y ∈ x :: vs → le (fold_left f vs x) y = true.
Proof.
  intros Hf.
  assert (∀ x, P x → le x x = true) as le_refl.
  { intros z Hz. by destruct (le_total z z Hz Hz). }
  revert x. induction vs as [|v vs IH]; intros x Hall.
  - simpl. split; [by left|]. intros y ->%list_elem_of_singleton.
    apply le_refl. by inversion Hall.
  - inversion Hall as [|? ? Hx Hall']; subst.
    inversion Hall' as [|? ? Hv Hvs]; subst.
    destruct (Hf x v Hx Hv) as (Hor & Hmx & Hmv).
    set (m := f x v) in *.
    assert (P m) as Hm by (by destruct Hor as [-> | ->]).
    destruct (IH m (Forall_cons_2 _ _ _ Hm Hvs)) as [Hin Hlb].
    cbn [fold_left]. fold m. split.
    + apply elem_of_cons in Hin as [->|Hin].
      * destruct Hor as [-> | ->]; [by left|by right; left].
      * by right; right.
    + intros y Hy.
      assert (le (fold_left f vs m) m = true) as Hfm by (apply Hlb; by left).
      apply elem_of_cons in Hy as [->|Hy]; [by eapply le_trans|].
      apply elem_of_cons in Hy as [->|Hy]; [by eapply le_trans|].
      apply Hlb. by right.
Qed.

(** The step that keeps the earlier operand on a tie. *)
Lemma fold_left_least (vs : list X) (x : X) :
  Forall P (x :: vs) →
  fold_left (λ a b, if le a b then a else b) vs x ∈ x :: vs ∧
  ∀ y, y ∈ x :: vs → le (fold_left (λ a b, if le a b then a else b) vs x) y = true.
Proof.
  apply fold_left_selects. intros a b Ha Hb.
  destruct (le a b) eqn:E.
  - split; [by left|]. split; [|done]. by destruct (le_total a a Ha Ha).
  - destruct (le_total a b Ha Hb) as [Hle|Hle]; [congruence|].
    split; [by right|]. split; [done|]. by destruct (le_total b b Hb Hb).
Qed.

(** The step that keeps the later operand on a tie. *)
Lemma fold_left_least_later (vs : list X) (x : X) :
  Forall P (x :: vs) →
  fold_left (λ a b, if le b a then b else a) vs x ∈ x :: vs ∧
  ∀ y, y ∈ x :: vs → le (fold_left (λ a b, if le b a then b else a) vs x) y = true.
Proof.
  apply fold_left_selects. intros a b Ha Hb.
  destruct (le b a) eqn:E.
  - split; [by right|]. split; [done|]. by destruct (le_total b b Hb Hb).
  - destruct (le_total a b Ha Hb) as [Hle|Hle]; [|congruence].
    split; [by left|]. split; [|done]. by destruct (le_total a a Ha Ha).
Qed.

End Extremum.

Section Reductions.
Context {A : Type} `{OrderLaws A}.
Implicit Types (x y : A) (xs vs : list A).

Lemma notna_Forall xs : Forall (λ x, d_isnan x = false) (notna xs).
Proof.
  apply Forall_forall. intros x [_ Hx]%filter_In.
  by apply negb_true_iff.
Qed.

Lemma notna_id vs : Forall (λ x, d_isnan x = false) vs → notna vs = vs.
Proof.
  induction 1 as [|x vs Hx _ IH]; [done|].
  unfold notna in *. simpl. by rewrite Hx, IH.
Qed.

(** The reduction of a column by [minimum] is one of its values and lies
    below all of them; by [maximum], above all of them. *)
Lemma fold_minimum_spec vs x :
  Forall (λ x, d_isnan x = false) (x :: vs) →
  fold_left minimum vs x ∈ x :: vs ∧
  ∀ y, y ∈ x :: vs → d_le (fold_left minimum vs x) y = true.
Proof.
  apply (fold_left_least_later d_le (λ x, d_isnan x = false)).
  - apply le_total.
  - apply le_trans.
Qed.

Lemma fold_maximum_spec vs x :
  Forall (λ x, d_isnan x = false) (x :: vs) →
  fold_left maximum vs x ∈ x :: vs ∧
  ∀ y, y ∈ x :: vs → d_le y (fold_left maximum vs x) = true.
Proof.
  apply (fold_left_least_later (λ a b, d_le b a) (λ x, d_isnan x = false)).
  - intros a b Ha Hb. destruct (le_total a b Ha Hb); auto.
  - intros a b c Hab Hbc. by apply (le_trans c b a).
Qed.

Lemma reduce_minimum_spec vs :
  vs ≠ [] → Forall (λ x, d_isnan x = false) vs →
  reduce minimum vs ∈ vs ∧ ∀ y, y ∈ vs → d_le (reduce minimum vs) y = true.
Proof. destruct vs as [|x vs]; [done|]. intros _. apply fold_minimum_spec. Qed.

Lemma reduce_maximum_spec vs :
  vs ≠ [] → Forall (λ x, d_isnan x = false) vs →
  reduce maximum vs ∈ vs ∧ ∀ y, y ∈ vs → d_le y (reduce maximum vs) = true.
Proof. destruct vs as [|x vs]; [done|]. intros _. apply fold_maximum_spec. Qed.


(** The reductions in the words of the specification. *)
Lemma reduce_minimum_least xs : least xs (reduce minimum (notna xs)).
Proof.
  destruct (decide (notna xs = [])) as [Hxs|Hne].
  - right. rewrite Hxs. split; [|done]. intros x Hx.
    destruct (d_isnan x) eqn:Hna; [done|].
    assert (x ∈ notna xs) as Hin.
    { unfold notna. apply list_elem_of_In, filter_In.
      split; [by apply list_elem_of_In|by rewrite Hna]. }
    rewrite Hxs in Hin. by apply elem_of_nil in Hin.
  - left. destruct (reduce_minimum_spec _ Hne (notna_Forall xs)) as [Hlo Hlb].
    unfold notna in Hlo. apply list_elem_of_In, filter_In in Hlo as [Hlo Hna].
    apply list_elem_of_In in Hlo. apply negb_true_iff in Hna.
    repeat split; try done. intros x Hx Hxna. apply Hlb.
    unfold notna. apply list_elem_of_In, filter_In.
    split; [by apply list_elem_of_In|by rewrite Hxna].
Qed.

Lemma reduce_maximum_greatest xs : greatest xs (reduce maximum (notna xs)).
Proof.
  destruct (decide (notna xs = [])) as [Hxs|Hne].
  - right. rewrite Hxs. split; [|done]. intros x Hx.
    destruct (d_isnan x) eqn:Hna; [done|].
    assert (x ∈ notna xs) as Hin.
    { unfold notna. apply list_elem_of_In, filter_In.
      split; [by apply list_elem_of_In|by rewrite Hna]. }
    rewrite Hxs in Hin. by apply elem_of_nil in Hin.
  - left. destruct (reduce_maximum_spec _ Hne (notna_Forall xs)) as [Hhi Hub].
    unfold notna in Hhi. apply list_elem_of_In, filter_In in Hhi as [Hhi Hna].
    apply list_elem_of_In in Hhi. apply negb_true_iff in Hna.
    repeat split; try done. intros x Hx Hxna. apply Hub.
    unfold notna. apply list_elem_of_In, filter_In.
    split; [by apply list_elem_of_In|by rewrite Hxna].
Qed.

End Reductions.


(** ** C6: a constant lightcurve *)

Section Constant.
Context {A : Type} `{NanLaws A}.
Implicit Types (v : A).


Lemma notna_replicate n v :
  d_isnan v = false → notna (replicate n v) = replicate n v.
Proof.
  intros Hv. unfold notna. induction n as [|n IH]; [done|].
  simpl. by rewrite Hv, IH.
Qed.

Lemma fold_left_replicate (f : A → A → A) n v :
  f v v = v → fold_left f (replicate n v) v = v.
Proof. intros Hf. induction n as [|n IH]; [done|]. simpl. by rewrite Hf. Qed.

Lemma reduce_replicate (f : A → A → A) n v :
  f v v = v → reduce f (replicate (S n) v) = v.
Proof. apply fold_left_replicate. Qed.

Lemma minimum_diag v : minimum v v = v.
Proof. unfold minimum. by destruct (d_le v v). Qed.

Lemma maximum_diag v : maximum v v = v.
Proof. unfold maximum. by destruct (d_le v v). Qed.

(** Every row of a constant column normalises to an undefined quotient,
    which [fillna] replaces by zero. *)
Lemma normalized_replicate n v :
  normalized (replicate (S n) v) = replicate (S n) d_zero.
Proof.
  unfold normalized, two_step_range, shifted.
  rewrite !fmap_replicate.
  assert (∀ lo range, d_isnan (d_div (d_sub v lo) range) = true →
    fill (d_div (d_sub v lo) range) = d_zero) as Hfill.
  { intros lo range Hq. unfold fill. by rewrite Hq. }
  f_equal. apply Hfill.
  destruct (d_isnan v) eqn:Hv.
  - by apply isnan_div_l, isnan_sub_l.
  - rewrite (notna_replicate _ _ Hv), (reduce_replicate _ _ _ (minimum_diag v)).
    destruct (sub_diag v) as [Hz|Hz].
    + by apply isnan_div_l.
    + rewrite Hz, (notna_replicate _ _ isnan_zero).
      rewrite (reduce_replicate _ _ _ (maximum_diag d_zero)).
      apply div_zero_zero.
Qed.

End Constant.

(** C6, as amended.  On a table whose magnitude column holds one value
    in every row, [normalize_lc] returns 0.0 for every row when all cells
    of the table are numbers; when some other column holds text, the
    table-wide subtraction fails and it raises [TypeError]. *)
Theorem normalize_lc_constant :
  ∀ (A : Type) (D : Dtype A) (L : NanLaws A) (df : DataFrame A)
    (mag_col : string) (n : nat) (v : A),
    frame_getitem df mag_col = Ok (replicate (S n) (Num v)) →
    (numeric_frame df →
       normalize_lc (PyFrame df) mag_col = Ok (replicate (S n) (Num d_zero))) ∧
    (¬ numeric_frame df →
       normalize_lc (PyFrame df) mag_col = Raise TypeError).
Proof.
  intros A D L df mag_col n v Hcol. split; intros Hdf.
  - rewrite <-fmap_replicate in Hcol.
    rewrite (normalize_lc_numeric df mag_col _ Hdf Hcol).
    by rewrite normalized_replicate, fmap_replicate.
  - unfold normalize_lc, min_mag, Series_min. simpl. rewrite Hcol. simpl.
    rewrite <-fmap_replicate, numbers_fmap. simpl.
    by rewrite frame_sub_text.
Qed.

(** The claim as stated fails on a table that carries its band beside
    the magnitudes: the column is constant and nothing is returned. *)
Lemma normalize_lc_constant_text :
  getitem Float64.text_and_mag "mag" = Ok (replicate 2 (Num (Float64.of_Z 1))) ∧
  normalize_lc Float64.text_and_mag "mag" = Raise TypeError.
Proof. split; reflexivity. Qed.

Lemma normalize_lc_constant_witness :
  normalize_lc Float64.constant_mag "mag" = Ok (replicate 3 (Num d_zero)).
Proof.
  apply (normalize_lc_constant spec_float _ _ _ "mag" 2 (Float64.of_decimal 175 1)).
  - reflexivity.
  - repeat constructor; by eexists.
Defined.

(** ** C2 and C4: statistics per band *)

Section Stats.
Context {A : Type} `{Dtype A}.
Implicit Types (lc : gmap string (pyobj A)) (bands : list string).
Implicit Types (stats : gmap string (gmap string (scalar A))).

Lemma foldlM_app {X Y} (f : X → Y → result X) (a : X) (l1 l2 : list Y) :
  foldlM f a (l1 ++ l2) = a' ← foldlM f a l1; foldlM f a' l2.
Proof.
  revert a. induction l1 as [|y l1 IH]; intros a; [done|].
  simpl. destruct (f a y) as [a'|e]; simpl; [apply IH|done].
Qed.

(** The loop body stores the statistics of the band under its name. *)
Lemma calc_stats_body_band_stat lc c stats b :
  calc_stats_body lc c stats b = st ← band_stat lc c b; Ok (<[b := st]> stats).
Proof.
  unfold calc_stats_body, band_stat, dict_getitem.
  destruct (lc !! b) as [t|]; simpl; [|done].
  destruct (max_mag t c) as [mx|e]; simpl; [|done].
  destruct (mean_mag t c) as [mn|e]; simpl; [|done].
  by destruct (min_mag t c) as [mi|e].
Qed.

Lemma foldlM_calc_stats_Ok lc c bands stats0 stats :
  foldlM (calc_stats_body lc c) stats0 bands = Ok stats →
  (∀ b, b ∈ bands → ∃ st, band_stat lc c b = Ok st ∧ stats !! b = Some st) ∧
  (∀ b, b ∉ bands → stats !! b = stats0 !! b).
Proof.
  revert stats0. induction bands as [|b bands IH]; intros stats0; simpl.
  - intros [= <-]. split; [|done]. by intros b ?%elem_of_nil.
  - rewrite calc_stats_body_band_stat.
    intros (stats1 & (st & Hst & [= <-])%bind_Ok & Hfold)%bind_Ok.
    destruct (IH _ Hfold) as [Hin Hout]. split.
    + intros b' [->|Hb']%elem_of_cons; [|by apply Hin].
      destruct (decide (b ∈ bands)) as [Hb|Hb]; [by apply Hin|].
      exists st. split; [done|]. by rewrite (Hout b Hb), lookup_insert_eq.
    + intros b' [Hne Hb']%not_elem_of_cons.
      by rewrite (Hout b' Hb'), lookup_insert_ne.
Qed.

Lemma foldlM_calc_stats_total lc c bands stats0 :
  (∀ b, b ∈ bands → is_Ok (band_stat lc c b)) →
  is_Ok (foldlM (calc_stats_body lc c) stats0 bands).
Proof.
  revert stats0. induction bands as [|b bands IH]; intros stats0 Hall; simpl.
  - by eexists.
  - rewrite calc_stats_body_band_stat.
    destruct (Hall b) as [st ->]; [by left|]. simpl.
    apply IH. intros b' Hb'. apply Hall. by right.
Qed.


Lemma dom_stat_entry (mx mn mi : scalar A) :
  dom (stat_entry mx mn mi) = ({["min"; "mean"; "max"]} : gset string).
Proof. unfold stat_entry. rewrite !dom_insert_L, dom_empty_L. set_solver. Qed.

Lemma band_stat_Ok lc c b st :
  band_stat lc c b = Ok st ↔
  ∃ t x y z, lc !! b = Some t ∧ max_mag t c = Ok (Num x) ∧
    mean_mag t c = Ok (Num y) ∧ min_mag t c = Ok (Num z) ∧
    st = stat_entry (Num x) (Num y) (Num z).
Proof.
  unfold band_stat, dict_getitem. split.
  - destruct (lc !! b) as [t|]; simpl; [|done].
    unfold max_mag, mean_mag, min_mag.
    destruct (getitem t c) as [col|e] eqn:Hcol; simpl; [|done].
    unfold Series_max, Series_mean, Series_min.
    destruct (numbers col) as [xs|] eqn:Hxs; simpl.
    + intros [= <-]. eexists t, _, _, _. rewrite Hcol. simpl. rewrite Hxs.
      by repeat split.
    + by destruct (texts col).
  - intros (t & x & y & z & -> & Hx & Hy & Hz & ->). simpl.
    rewrite Hx. simpl. rewrite Hy. simpl. by rewrite Hz.
Qed.

(** Aligning the rows changes nothing when every column has the same
    row labels. *)
Lemma from_records_id stats (index : gset string) :
  (∀ b st, stats !! b = Some st → dom st = index) →
  from_records stats = stats.
Proof.
  intros Hdom. unfold from_records. apply map_eq. intros b.
  rewrite lookup_fmap. destruct (stats !! b) as [st|] eqn:Hb; [|done].
  simpl. f_equal. apply map_eq. intros k. rewrite lookup_union.
  destruct (st !! k) as [v|] eqn:Hk; [by destruct (gset_to_gmap _ _ !! k)|].
  rewrite lookup_gset_to_gmap, option_guard_False; [done|].
  intros (X & HX & Hk')%elem_of_union_list.
  apply list_elem_of_fmap in HX as (st' & -> & Hst').
  apply list_elem_of_fmap in Hst' as ([b' st''] & -> & Hin).
  apply elem_of_map_to_list in Hin. simpl in Hk'.
  rewrite (Hdom _ _ Hin), <-(Hdom _ _ Hb) in Hk'.
  apply elem_of_dom in Hk' as [? ?]. congruence.
Qed.

Lemma calc_stats_foldlM lc c bands stats :
  foldlM (calc_stats_body lc c) ∅ bands = Ok stats →
  calc_stats lc bands c = Ok stats.
Proof.
  intros Hfold. unfold calc_stats. rewrite Hfold. simpl. f_equal.
  destruct (foldlM_calc_stats_Ok _ _ _ _ _ Hfold) as [Hin Hout].
  apply (from_records_id _ {["min"; "mean"; "max"]}). intros b st Hb.
  destruct (decide (b ∈ bands)) as [Hbands|Hbands].
  - destruct (Hin b Hbands) as (st' & Hst' & Hb').
    apply band_stat_Ok in Hst' as (t & x & y & z & _ & _ & _ & _ & ->).
    rewrite Hb in Hb'. injection Hb' as ->. apply dom_stat_entry.
  - by rewrite (Hout b Hbands) in Hb.
Qed.

End Stats.

(** C2. [calc_stats] returns a frame exactly when every band of [bands]
    is in [lc] and its magnitude column reduces; the frame then has one
    entry per band name, which maps ["max"], ["mean"] and ["min"] to the
    numbers [max_mag], [mean_mag] and [min_mag] return on [lc[b]]. *)
Theorem calc_stats_entries :
  ∀ (A : Type) (D : Dtype A) (lc : gmap string (pyobj A)) (bands : list string)
    (mag_col : string) (stats : StatsFrame A),
    calc_stats lc bands mag_col = Ok stats ↔
    dom stats = list_to_set bands ∧
    ∀ b, b ∈ bands →
      ∃ t x y z, lc !! b = Some t ∧
        max_mag t mag_col = Ok (Num x) ∧
        mean_mag t mag_col = Ok (Num y) ∧
        min_mag t mag_col = Ok (Num z) ∧
        stats !! b = Some (<["min" := Num z]> (<["mean" := Num y]> {["max" := Num x]})).
Proof.
  intros A D lc bands c stats. split.
  - unfold calc_stats. intros (stats' & Hfold & Hst)%bind_Ok.
    pose proof (calc_stats_foldlM _ _ _ _ Hfold) as Hcalc.
    unfold calc_stats in Hcalc. rewrite Hfold in Hcalc. simpl in Hcalc, Hst.
    rewrite Hcalc in Hst. injection Hst as <-.
    destruct (foldlM_calc_stats_Ok _ _ _ _ _ Hfold) as [Hin Hout]. split.
    + apply set_eq. intros b. rewrite elem_of_dom, elem_of_list_to_set. split.
      * intros [st Hb]. destruct (decide (b ∈ bands)) as [|Hn]; [done|].
        by rewrite (Hout b Hn) in Hb.
      * intros Hb. destruct (Hin b Hb) as (st & _ & ->). by eexists.
    + intros b Hb. destruct (Hin b Hb) as (st & Hst & Hlook).
      apply band_stat_Ok in Hst as (t & x & y & z & ? & ? & ? & ? & ->).
      by exists t, x, y, z.
  - intros [Hdom Hall].
    destruct (foldlM_calc_stats_total lc c bands ∅) as [stats' Hfold].
    { intros b Hb. destruct (Hall b Hb) as (t & x & y & z & ? & ? & ? & ? & _).
      eexists. apply band_stat_Ok. by exists t, x, y, z. }
    rewrite (calc_stats_foldlM _ _ _ _ Hfold). f_equal.
    destruct (foldlM_calc_stats_Ok _ _ _ _ _ Hfold) as [Hin Hout].
    apply map_eq. intros b. destruct (decide (b ∈ bands)) as [Hb|Hb].
    + destruct (Hin b Hb) as (st & Hst & ->).
      destruct (Hall b Hb) as (t & x & y & z & Ht & Hx & Hy & Hz & ->).
      apply band_stat_Ok in Hst as (t' & x' & y' & z' & Ht' & Hx' & Hy' & Hz' & ->).
      rewrite Ht in Ht'. injection Ht' as <-.
      rewrite Hx in Hx'. rewrite Hy in Hy'. rewrite Hz in Hz'.
      by injection Hx' as <-; injection Hy' as <-; injection Hz' as <-.
    + rewrite (Hout b Hb), lookup_empty. symmetry.
      apply not_elem_of_dom. rewrite Hdom. by rewrite elem_of_list_to_set.
Qed.




(** ** C5: text where numbers are expected *)

Lemma String_leb_trans s1 s2 s3 :
  String.leb s1 s2 = true → String.leb s2 s3 = true → String.leb s1 s3 = true.
Proof.
  unfold String.leb. revert s2 s3.
  induction s1 as [|c1 s1 IH]; intros [|c2 s2] [|c3 s3]; simpl; try done.
  unfold Ascii.compare.
  destruct (N.compare_spec (Ascii.N_of_ascii c1) (Ascii.N_of_ascii c2)) as [H12|H12|H12],
    (N.compare_spec (Ascii.N_of_ascii c2) (Ascii.N_of_ascii c3)) as [H23|H23|H23],
    (N.compare_spec (Ascii.N_of_ascii c1) (Ascii.N_of_ascii c3)) as [H13|H13|H13];
    try done; try lia.
  apply IH.
Qed.

Section Text.
Context {A : Type} `{Dtype A}.

Lemma str_reduce_minimum_spec (ss : list string) :
  ss ≠ [] →
  ∃ lo, @str_reduce A _ str_minimum ss = Str lo ∧ lo ∈ ss ∧
    ∀ s, s ∈ ss → String.leb lo s = true.
Proof.
  destruct ss as [|s ss]; [done|]. intros _.
  destruct (fold_left_least String.leb (λ _, True) (λ x y _ _, String.leb_total x y)
    String_leb_trans ss s) as [Hin Hlb].
  { by apply Forall_forall. }
  by eexists.
Qed.

Lemma str_reduce_maximum_spec (ss : list string) :
  ss ≠ [] →
  ∃ hi, @str_reduce A _ str_maximum ss = Str hi ∧ hi ∈ ss ∧
    ∀ s, s ∈ ss → String.leb s hi = true.
Proof.
  destruct ss as [|s ss]; [done|]. intros _.
  destruct (fold_left_least (λ a b, String.leb b a) (λ _, True)
    (λ x y _ _, String.leb_total y x)
    (λ x y z Hxy Hyz, String_leb_trans z y x Hyz Hxy) ss s) as [Hin Hub].
  { by apply Forall_forall. }
  by eexists.
Qed.

End Text.

(** C5, as amended.  Each reducer raises [TypeError] when its table
    argument is a string, and [mean_mag] raises it on every column that
    holds a text.  [min_mag] and [max_mag] raise it on a column that
    holds a text and a number that is not NaN.  On a column of text, in
    which a cell without a value is NaN, they return the first and the
    last text of the column in lexicographic order.  Text is never
    turned into a number. *)
Theorem reducers_on_text :
  ∀ (A : Type) (D : Dtype A),
    (∀ s c : string,
       min_mag (PyStr s : pyobj A) c = Raise TypeError ∧
       max_mag (PyStr s : pyobj A) c = Raise TypeError ∧
       mean_mag (PyStr s : pyobj A) c = Raise TypeError) ∧
    (∀ (df : DataFrame A) (c : string) (col : Series A),
       frame_getitem df c = Ok col → (∃ t, Str t ∈ col) →
       mean_mag (PyFrame df) c = Raise TypeError ∧
       ((∃ x, Num x ∈ col ∧ d_isnan x = false) →
          min_mag (PyFrame df) c = Raise TypeError ∧
          max_mag (PyFrame df) c = Raise TypeError) ∧
       ((∀ x, Num x ∈ col → d_isnan x = true) →
          ∃ lo hi : string,
            min_mag (PyFrame df) c = Ok (Str lo) ∧
            max_mag (PyFrame df) c = Ok (Str hi) ∧
            Str lo ∈ col ∧ Str hi ∈ col ∧
            ∀ t, Str t ∈ col → String.leb lo t = true ∧ String.leb t hi = true)).
Proof.
  intros A D. split; [done|].
  intros df c col Hcol Htext.
  assert (numbers col = None) as Hnum by (by apply numbers_None).
  unfold mean_mag, min_mag, max_mag, Series_mean, Series_min, Series_max.
  simpl. rewrite Hcol. simpl. rewrite Hnum. split; [done|]. split.
  - intros Hx%texts_None. by rewrite Hx.
  - intros Hna. destruct (texts col) as [ss|] eqn:Htxt.
    + destruct (texts_Some col ss Htxt) as [Hss _].
      assert (ss ≠ []) as Hne.
      { destruct Htext as [t Ht%Hss]. intros ->. by apply elem_of_nil in Ht. }
      destruct (str_reduce_minimum_spec ss Hne) as (lo & -> & Hlo & Hlb).
      destruct (str_reduce_maximum_spec ss Hne) as (hi & -> & Hhi & Hub).
      exists lo, hi. repeat split; try (by apply Hss).
      * apply Hlb. by apply Hss.
      * apply Hub. by apply Hss.
    + apply texts_None in Htxt as (x & Hx & Hxna).
      rewrite (Hna x Hx) in Hxna. done.
Qed.

(** The claim as stated fails on a column of text: [min_mag] and
    [max_mag] return one of the texts. *)
Lemma reducers_on_text_column :
  min_mag Float64.text_mag "mag" = Ok (Str "17.2") ∧
  max_mag Float64.text_mag "mag" = Ok (Str ">21.5").
Proof. split; reflexivity. Qed.

(** ** C9: the arguments are left as they are *)

Section HeapFacts.
Context {A : Type} `{Dtype A}.
Implicit Types (h : gmap positive (pyobj A)) (l : positive) (o : pyobj A).

Lemma heap_getitem_run h l o c :
  h !! l = Some o → Heap.getitem l c h = Some (getitem o c, h).
Proof.
  intros Hl. unfold Heap.getitem, Heap.deref, Heap.lift, mbind, Heap.M_bind.
  by rewrite Hl.
Qed.

Lemma heap_reduce_run h l o c (f : Series A → result (scalar A)) :
  h !! l = Some o →
  (col ← Heap.getitem l c; Heap.lift (f col)) h = Some (getitem o c ≫= f, h).
Proof.
  intros Hl. unfold mbind at 1. unfold Heap.M_bind.
  rewrite (heap_getitem_run h l o c Hl).
  by destruct (getitem o c).
Qed.

Lemma heap_sub_run h l o s :
  h !! l = Some o →
  Heap.sub l s h =
    match pyobj_sub o s with
    | Ok o' => Some (Ok (fresh (dom h)), <[fresh (dom h) := o']> h)
    | Raise e => Some (Raise e, h)
    end.
Proof.
  intros Hl. unfold Heap.sub, Heap.deref, Heap.lift, Heap.alloc, mbind, Heap.M_bind.
  rewrite Hl. by destruct (pyobj_sub o s).
Qed.

Lemma heap_alloc_fresh h o' : h ⊆ <[fresh (dom h) := o']> h.
Proof. apply insert_subseteq, not_elem_of_dom, is_fresh. Qed.

Lemma heap_min_mag_run h l o c :
  h !! l = Some o → Heap.min_mag l c h = Some (min_mag o c, h).
Proof. apply (heap_reduce_run h l o c Series_min). Qed.

Lemma heap_max_mag_run h l o c :
  h !! l = Some o → Heap.max_mag l c h = Some (max_mag o c, h).
Proof. apply (heap_reduce_run h l o c Series_max). Qed.

Lemma heap_mean_mag_run h l o c :
  h !! l = Some o → Heap.mean_mag l c h = Some (mean_mag o c, h).
Proof. apply (heap_reduce_run h l o c Series_mean). Qed.

Lemma heap_normalize_lc_run h l o c :
  h !! l = Some o →
  ∃ h', Heap.normalize_lc l c h = Some (normalize_lc o c, h') ∧ h ⊆ h'.
Proof.
  intros Hl. unfold Heap.normalize_lc, normalize_lc.
  unfold mbind at 1. unfold Heap.M_bind at 1.
  rewrite (heap_min_mag_run h l o c Hl).
  destruct (min_mag o c) as [lo|e]; [|by exists h].
  cbn [mbind result_bind]. unfold mbind at 1. unfold Heap.M_bind at 1.
  rewrite (heap_sub_run h l o lo Hl).
  destruct (pyobj_sub o lo) as [sh|e]; [|by exists h].
  set (l' := fresh (dom h)). set (h' := <[l' := sh]> h).
  assert (h ⊆ h') as Hsub by apply heap_alloc_fresh.
  assert (h' !! l' = Some sh) as Hl' by apply lookup_insert_eq.
  assert (h' !! l = Some o) as Hl2 by (by eapply lookup_weaken).
  exists h'. split; [|done].
  cbn [mbind result_bind]. unfold mbind at 1. unfold Heap.M_bind at 1.
  rewrite (heap_max_mag_run h' l' sh c Hl').
  destruct (max_mag sh c) as [hi|e]; [|done].
  cbn [mbind result_bind]. unfold mbind at 1. unfold Heap.M_bind at 1.
  rewrite (heap_getitem_run h' l o c Hl2).
  destruct (getitem o c) as [col|e]; [|done].
  cbn [mbind result_bind]. unfold mbind at 1. unfold Heap.M_bind at 1, Heap.lift.
  destruct (Series_sub col lo) as [num|e]; [|done].
  cbn [mbind result_bind]. unfold mbind at 1. unfold Heap.M_bind at 1.
  by destruct (Series_div num hi) as [q|e].
Qed.

End HeapFacts.

(** C9.  Run on a heap, the three reducers leave the heap as it is, and
    [normalize_lc] changes no object that was there: the table it is
    given is the same afterwards, the shifted table being a new object.
    Each function returns what it computes from the value of the table. *)
Theorem arguments_unchanged :
  ∀ (A : Type) (D : Dtype A) (h : gmap positive (pyobj A)) (data : positive)
    (mag_col : string) (o : pyobj A),
    h !! data = Some o →
    Heap.min_mag data mag_col h = Some (min_mag o mag_col, h) ∧
    Heap.max_mag data mag_col h = Some (max_mag o mag_col, h) ∧
    Heap.mean_mag data mag_col h = Some (mean_mag o mag_col, h) ∧
    ∃ h', Heap.normalize_lc data mag_col h = Some (normalize_lc o mag_col, h') ∧
          h' !! data = Some o ∧
          ∀ l o', h !! l = Some o' → h' !! l = Some o'.
Proof.
  intros A D h data c o Hdata. repeat split.
  - by apply heap_min_mag_run.
  - by apply heap_max_mag_run.
  - by apply heap_mean_mag_run.
  - destruct (heap_normalize_lc_run h data o c Hdata) as (h' & Hrun & Hsub).
    exists h'. split; [done|]. split.
    + by eapply lookup_weaken.
    + intros l o' Hl. by eapply lookup_weaken.
Qed.

(** ** Sums without rounding *)

(** Without rounding the order of the additions does not matter: the
    pairwise sum of numpy is the sum from left to right, and the zeros
    pandas puts in the place of NaN do not change it. *)
Module ExactSum.
Import Exact ExactFacts.
Local Open Scope Qc_scope.

Lemma add_comm (x y : xnum) : add x y = add y x.
Proof.
  destruct x as [p|[]|], y as [q|[]|]; try done.
  simpl. f_equal. ring.
Qed.

Lemma add_assoc (x y z : xnum) : add (add x y) z = add x (add y z).
Proof.
  destruct x as [p|[]|], y as [q|[]|], z as [r|[]|]; try done.
  simpl. f_equal. ring.
Qed.

Lemma add_zero_l (x : xnum) : add (XFin 0) x = x.
Proof. destruct x as [p|[]|]; try done. simpl. f_equal. ring. Qed.

Lemma add_zero_r (x : xnum) : add x (XFin 0) = x.
Proof. by rewrite add_comm, add_zero_l. Qed.

Lemma add_swap (a b c d : xnum) :
  add (add a b) (add c d) = add (add a c) (add b d).
Proof.
  rewrite !add_assoc. f_equal. rewrite <-!add_assoc. f_equal. apply add_comm.
Qed.

(** The sum from left to right, starting from zero. *)
Lemma fold_add_start (xs : list xnum) (a : xnum) :
  fold_left add xs a = add a (fold_left add xs (XFin 0)).
Proof.
  revert a. induction xs as [|x xs IH]; intros a; cbn [fold_left].
  - by rewrite add_zero_r.
  - rewrite (IH (add a x)), (IH (add (XFin 0) x)), add_zero_l.
    by rewrite !add_assoc.
Qed.

Lemma fold_add_cons (x : xnum) (xs : list xnum) :
  fold_left add (x :: xs) (XFin 0) = add x (fold_left add xs (XFin 0)).
Proof. cbn [fold_left]. by rewrite fold_add_start, add_zero_l. Qed.

Lemma fold_add_app (xs ys : list xnum) :
  fold_left add (xs ++ ys) (XFin 0)
  = add (fold_left add xs (XFin 0)) (fold_left add ys (XFin 0)).
Proof. by rewrite fold_left_app, fold_add_start. Qed.

Lemma fold_add_zip_with (r c : list xnum) :
  length r = length c →
  fold_left add (zip_with add r c) (XFin 0)
  = add (fold_left add r (XFin 0)) (fold_left add c (XFin 0)).
Proof.
  revert c. induction r as [|a r IH]; intros [|b c] Hlen; try done.
  cbn [zip_with]. rewrite !fold_add_cons, IH by (by injection Hlen).
  apply add_swap.
Qed.

(** The eight accumulators of a block hold its sum. *)
Lemma unrolled_sum (k : nat) (r xs : list xnum) :
  length r = 8%nat → (8 * k ≤ length xs)%nat →
  length (unrolled r xs k).1 = 8%nat ∧
  add (fold_left add (unrolled r xs k).1 (XFin 0))
      (fold_left add (unrolled r xs k).2 (XFin 0))
  = add (fold_left add r (XFin 0)) (fold_left add xs (XFin 0)).
Proof.
  revert r xs. induction k as [|k IH]; intros r xs Hr Hxs; [done|].
  cbn [unrolled].
  assert (length (take 8 xs) = 8%nat) as Htake by (rewrite length_take; lia).
  destruct (IH (zip_with d_add r (take 8 xs)) (drop 8 xs)) as [Hlen Hsum].
  { rewrite length_zip_with. lia. }
  { rewrite length_drop. lia. }
  split; [done|]. rewrite Hsum.
  change (@d_add xnum exact) with add.
  rewrite fold_add_zip_with by lia.
  rewrite <-(take_drop 8 xs) at 3. rewrite fold_add_app.
  by rewrite !add_assoc.
Qed.

Lemma combine8_sum (r : list xnum) :
  length r = 8%nat → combine8 r = fold_left add r (XFin 0).
Proof.
  destruct r as [|r0 [|r1 [|r2 [|r3 [|r4 [|r5 [|r6 [|r7 [|]]]]]]]]]; try done.
  intros _. cbn [combine8 fold_left]. change (@d_add xnum exact) with add.
  by rewrite add_zero_l, !add_assoc.
Qed.

Lemma pairwise_sum_exact (fuel : nat) (xs : list xnum) :
  (length xs ≤ fuel)%nat → pairwise_sum fuel xs = fold_left add xs (XFin 0).
Proof.
  revert xs. induction fuel as [|fuel IH]; intros xs Hfuel.
  - by destruct xs; [|simpl in Hfuel; lia].
  - cbn [pairwise_sum].
    destruct (length xs <? 8)%nat eqn:H8; [done|].
    apply Nat.ltb_ge in H8.
    destruct (length xs <=? 128)%nat eqn:H128.
    + destruct (unrolled_sum (length xs / 8 - 1) (take 8 xs) (drop 8 xs))
        as [Hlen Hsum].
      { rewrite length_take. lia. }
      { rewrite length_drop.
        pose proof (Nat.div_mod_eq (length xs) 8). lia. }
      destruct (unrolled (take 8 xs) (drop 8 xs) (length xs / 8 - 1))
        as [r rest]. cbn [fst snd] in *.
      change (@d_add xnum exact) with add.
      rewrite fold_add_start, combine8_sum, Hsum by done.
      by rewrite <-fold_add_app, take_drop.
    + apply Nat.leb_gt in H128.
      change (@d_add xnum exact) with add.
      pose proof (Nat.div_mod_eq (length xs) 2) as Hdiv.
      pose proof (Nat.mod_upper_bound (length xs) 2) as Hmod.
      pose proof (Nat.mod_upper_bound (length xs / 2) 8) as Hmod8.
      rewrite !IH.
      * by rewrite <-fold_add_app, take_drop.
      * rewrite length_drop. lia.
      * rewrite length_take. lia.
Qed.

Lemma fold_add_zero_filled (xs : list xnum) :
  fold_left add ((λ x, if isnan x then XFin 0 else x) <$> xs) (XFin 0)
  = fold_left add (notna xs) (XFin 0).
Proof.
  unfold notna. induction xs as [|x xs IH]; [done|].
  cbn [fmap list_fmap List.filter]. change (d_isnan x) with (isnan x).
  destruct (isnan x); cbn [negb].
  - change (list_fmap xnum xnum (λ x, if isnan x then XFin 0 else x) xs)
      with ((λ x, if isnan x then XFin 0 else x) <$> xs).
    by rewrite fold_add_cons, add_zero_l.
  - change (list_fmap xnum xnum (λ x, if isnan x then XFin 0 else x) xs)
      with ((λ x, if isnan x then XFin 0 else x) <$> xs).
    by rewrite !fold_add_cons, IH.
Qed.

(** The sum and the mean of a column, without rounding. *)
Lemma nansum_exact (xs : list xnum) :
  nansum xs = fold_left add (notna xs) (XFin 0).
Proof.
  unfold nansum. rewrite pairwise_sum_exact by (by rewrite length_fmap).
  apply fold_add_zero_filled.
Qed.

Lemma nanmean_exact (xs : list xnum) :
  nanmean xs =
  match notna xs with
  | [] => XNaN
  | _ => div (fold_left add (notna xs) (XFin 0))
             (of_Z (Z.of_nat (length (notna xs))))
  end.
Proof. unfold nanmean. by rewrite nansum_exact. Qed.

End ExactSum.

(** ** Columns of exact numbers *)

Module ExactColumns.
Import Exact ExactFacts.
Local Open Scope Qc_scope.

Lemma notna_fin (qs : list Qc) : notna (XFin <$> qs) = XFin <$> qs.
Proof. apply notna_id, Forall_fmap, Forall_forall. by intros q _. Qed.







Lemma Qcdiv_le_mono (x y n : Qc) : 0 < n → x ≤ y → x / n ≤ y / n.
Proof.
  intros Hn Hxy. unfold Qcdiv. apply Qcmult_le_compat_r; [done|].
  by apply Qclt_le_weak, Qcinv_pos.
Qed.



(** Minimum and maximum of finite values. *)
Lemma reduce_fin (qs : list Qc) :
  qs ≠ [] →
  ∃ lo hi, reduce minimum (XFin <$> qs) = XFin lo ∧
    reduce maximum (XFin <$> qs) = XFin hi ∧
    lo ∈ qs ∧ hi ∈ qs ∧ ∀ q, q ∈ qs → lo ≤ q ≤ hi.
Proof.
  intros Hne.
  assert (XFin <$> qs ≠ []) as Hne' by (by destruct qs).
  assert (Forall (λ x, d_isnan x = false) (XFin <$> qs)) as Hna.
  { apply Forall_fmap, Forall_forall. by intros q _. }
  destruct (reduce_minimum_spec _ Hne' Hna) as [Hlo Hlb].
  destruct (reduce_maximum_spec _ Hne' Hna) as [Hhi Hub].
  apply list_elem_of_fmap in Hlo as (lo & Hlo & Hlo').
  apply list_elem_of_fmap in Hhi as (hi & Hhi & Hhi').
  exists lo, hi. rewrite Hlo, Hhi. repeat split; try done.
  - apply le_XFin. rewrite <-Hlo. apply Hlb. by apply list_elem_of_fmap_2.
  - apply le_XFin. rewrite <-Hhi. apply Hub. by apply list_elem_of_fmap_2.
Qed.

End ExactColumns.

(** ** C3 and C8: the mean of a column *)




Module ExactMean.
Import Exact ExactFacts ExactColumns.
Local Open Scope Qc_scope.



End ExactMean.




(** ** C7 and C10: the range of a column *)

Section Shifted.
Context {A : Type} `{NanLaws A}.
Implicit Types (xs : list A) (lo : A).

Lemma notna_shifted xs lo :
  notna (shifted xs lo) = notna (shifted (notna xs) lo).
Proof.
  unfold notna, shifted. induction xs as [|x xs IH]; [done|].
  cbn [fmap list_fmap List.filter] in *.
  destruct (d_isnan x) eqn:Hx; cbn [negb].
  - by rewrite (isnan_sub_l x lo Hx).
  - cbn [fmap list_fmap List.filter]. by rewrite IH.
Qed.

Lemma notna_all_nan (f : A → A) xs :
  (∀ x, d_isnan (f x) = true) → notna (f <$> xs) = [].
Proof.
  intros Hf. unfold notna. induction xs as [|x xs IH]; [done|].
  cbn [fmap list_fmap List.filter] in *. by rewrite Hf.
Qed.

Lemma elem_of_notna (x : A) xs :
  x ∈ notna xs ↔ x ∈ xs ∧ d_isnan x = false.
Proof.
  unfold notna. rewrite !list_elem_of_In, filter_In.
  by rewrite negb_true_iff.
Qed.

Lemma mapM_normalize_row_numbers xs (lo range : A) :
  mapM (normalize_row (Num lo) (Num range)) (Num <$> xs)
  = Ok (Num <$> ((λ x, fill (d_div (d_sub x lo) range)) <$> xs)).
Proof.
  induction xs as [|x xs IH]; [done|].
  cbn [fmap list_fmap mapM] in *. rewrite IH.
  unfold normalize_row, fill. simpl.
  by destruct (d_isnan (d_div (d_sub x lo) range)).
Qed.

Lemma normalize_single_pass_numeric (df : DataFrame A) c xs :
  frame_getitem df c = Ok (Num <$> xs) →
  normalize_single_pass (PyFrame df) c
  = Ok (Num <$> ((λ x, fill (d_div (d_sub x (reduce minimum (notna xs)))
                                   (single_pass_range xs))) <$> xs)).
Proof.
  intros Hc. unfold normalize_single_pass, min_mag, max_mag, Series_min, Series_max.
  simpl. rewrite Hc. simpl. rewrite numbers_fmap. simpl.
  apply mapM_normalize_row_numbers.
Qed.

Lemma numeric_frame_getitem (df : DataFrame A) c col :
  numeric_frame df → frame_getitem df c = Ok col → ∃ xs, col = Num <$> xs.
Proof.
  induction 1 as [|[k col'] df [ys Hys] _ IH]; simpl; [done|].
  case_decide; [|done]. intros [= <-]. exists ys. by apply numbers_Some.
Qed.

End Shifted.

(** ** C1: the two-step algorithm *)

(** C1.  On a table with a numeric magnitude column, [normalize_lc] is
    the two-step algorithm of the specification.  When every cell of the
    table is a number: [minVal], which [min_mag] returns, is the least
    value of the column; [df - minVal] is a table in which every column
    of [df] has [minVal] subtracted, not the magnitude column alone;
    [maxVal], which [max_mag] returns on that table, is the greatest
    value of the shifted magnitude column; and the result holds
    [(x - minVal) / maxVal] for every row, with 0.0 in the place of a
    NaN.  When another column holds text, the subtraction from the whole
    table fails with [TypeError], where the single-pass formula, which
    never touches the other columns, returns values.  This holds for
    binary64 and for every arithmetic whose [<=] is a total preorder. *)
Theorem normalize_lc_two_step :
  ∀ (A : Type) (D : Dtype A) (O : OrderLaws A) (df : DataFrame A)
    (mag_col : string) (xs : list A),
    frame_getitem df mag_col = Ok (Num <$> xs) →
    (numeric_frame df →
       ∃ (minVal maxVal : A) (shifted_df : DataFrame A),
         min_mag (PyFrame df) mag_col = Ok (Num minVal) ∧
         least xs minVal ∧
         pyobj_sub (PyFrame df) (Num minVal) = Ok (PyFrame shifted_df) ∧
         (∀ k ys, frame_getitem df k = Ok (Num <$> ys) →
            frame_getitem shifted_df k
              = Ok (Num <$> ((λ y, d_sub y minVal) <$> ys))) ∧
         max_mag (PyFrame shifted_df) mag_col = Ok (Num maxVal) ∧
         greatest ((λ x, d_sub x minVal) <$> xs) maxVal ∧
         normalize_lc (PyFrame df) mag_col
           = Ok (Num <$> ((λ x, let q := d_div (d_sub x minVal) maxVal in
                                if d_isnan q then d_zero else q) <$> xs))) ∧
    (¬ numeric_frame df →
       normalize_lc (PyFrame df) mag_col = Raise TypeError ∧
       is_Ok (normalize_single_pass (PyFrame df) mag_col)).
Proof.
  intros A D O df c xs Hc. split.
  - intros Hdf.
    destruct (frame_sub_numeric df (reduce minimum (notna xs)) Hdf)
      as (df' & Hdf' & Hget).
    exists (reduce minimum (notna xs)),
      (reduce maximum (notna (shifted xs (reduce minimum (notna xs))))), df'.
    split; [|split; [|split; [|split; [|split; [|split]]]]].
    + unfold min_mag, Series_min. simpl. rewrite Hc. simpl.
      by rewrite numbers_fmap.
    + apply reduce_minimum_least.
    + simpl. by rewrite Hdf'.
    + apply Hget.
    + unfold max_mag, Series_max. simpl. rewrite (Hget c xs Hc). simpl.
      by rewrite numbers_fmap.
    + apply (reduce_maximum_greatest (shifted xs (reduce minimum (notna xs)))).
    + by rewrite (normalize_lc_numeric df c xs Hdf Hc).
  - intros Hdf. split.
    + unfold normalize_lc, min_mag, Series_min. simpl. rewrite Hc. simpl.
      rewrite numbers_fmap. simpl. by rewrite frame_sub_text.
    + rewrite (normalize_single_pass_numeric df c xs Hc). by eexists.
Qed.

Lemma normalize_lc_two_step_witness :
  normalize_lc Float64.text_and_mag "mag" = Raise TypeError ∧
  is_Ok (normalize_single_pass Float64.text_and_mag "mag").
Proof.
  apply (proj2 (normalize_lc_two_step spec_float _ _
    [("band", [Str "g"; Str "g"]);
     ("mag", [Num (Float64.of_Z 1); Num (Float64.of_Z 1)])] "mag"
    [Float64.of_Z 1; Float64.of_Z 1] eq_refl)).
  intros Hdf. inversion Hdf as [|? ? [ys Hys] _]. done.
Defined.

Module ExactRange.
Import Exact ExactFacts ExactColumns.
Local Open Scope Qc_scope.

(** Subtraction of a lower bound keeps the order, wherever it is
    defined. *)
Lemma sub_mono (m v M : xnum) :
  le m v = true → le v M = true → isnan (sub v m) = false →
  isnan (sub M m) = false ∧ le (sub v m) (sub M m) = true.
Proof.
  destruct m as [r|[]|], v as [p|[]|], M as [q|[]|]; try done.
  rewrite !le_XFin. intros _ Hpq _. split; [done|].
  unfold sub, add, opp. apply le_XFin. by apply Qcplus_le_mono_r.
Qed.

(** The largest value of the shifted column is the largest value
    shifted. *)
Lemma two_step_range_single_pass (xs : list xnum) :
  two_step_range xs = single_pass_range xs.
Proof.
  unfold two_step_range, single_pass_range.
  rewrite notna_shifted.
  pose proof (notna_Forall xs) as Hna. revert Hna.
  generalize (notna xs). intros vs Hna. clear xs.
  destruct (decide (vs = [])) as [->|Hne]; [done|].
  destruct (reduce_minimum_spec vs Hne Hna) as [Hlo Hlb].
  destruct (reduce_maximum_spec vs Hne Hna) as [Hhi Hub].
  set (m := reduce minimum vs) in *. set (M := reduce maximum vs) in *.
  change (d_sub M m) with (sub M m).
  destruct (decide (notna (shifted vs m) = [])) as [Hws|Hws].
  - rewrite Hws. symmetry. apply isnan_XNaN.
    destruct (isnan (sub M m)) eqn:HM; [done|].
    assert (sub M m ∈ notna (shifted vs m)) as Hin.
    { apply elem_of_notna. split; [|done]. by apply (list_elem_of_fmap_2 (λ x, sub x m)). }
    rewrite Hws in Hin. by apply elem_of_nil in Hin.
  - destruct (reduce_maximum_spec _ Hws (notna_Forall _)) as [Hr Hrub].
    set (r := reduce maximum (notna (shifted vs m))) in *.
    apply elem_of_notna in Hr as [Hr Hrna].
    apply list_elem_of_fmap in Hr as (v & Hrv & Hv).
    change (d_sub v m) with (sub v m) in Hrv.
    destruct (sub_mono m v M) as [HMna HrM]; [by apply Hlb|by apply Hub|by rewrite <-Hrv|].
    apply le_antisym; [by rewrite Hrv|].
    apply Hrub. apply elem_of_notna. split; [|done].
    by apply (list_elem_of_fmap_2 (λ x, sub x m)).
Qed.

End ExactRange.




Module ExactUnit.
Import Exact ExactFacts ExactColumns.
Local Open Scope Qc_scope.

Lemma Qcdiv_diag (d : Qc) : d ≠ 0 → d / d = 1.
Proof. intros Hd. unfold Qcdiv. by apply Qcmult_inv_r. Qed.

Lemma Qcdiv_0_l (d : Qc) : 0 / d = 0.
Proof. unfold Qcdiv. apply Qcmult_0_l. Qed.

Lemma Qcminus_diag (q : Qc) : q - q = 0.
Proof. unfold Qcminus. apply Qcplus_opp_r. Qed.

Lemma Qcminus_le_mono (p q r : Qc) : p ≤ q → p - r ≤ q - r.
Proof. intros Hpq. unfold Qcminus. by apply Qcplus_le_mono_r. Qed.

(** The value of one row, between the bounds [lo < hi] of the column. *)
Lemma unit_row (lo hi q : Qc) :
  lo < hi →
  fill (d_div (d_sub (XFin q) (XFin lo)) (d_sub (XFin hi) (XFin lo)))
  = XFin ((q - lo) / (hi - lo)).
Proof.
  intros Hlt. change d_sub with sub. change d_div with div.
  unfold sub, add, opp, div. fold (Qcminus q lo). fold (Qcminus hi lo).
  rewrite decide_False; [done|].
  intros Heq. apply (Qclt_not_eq _ _ Hlt).
  apply (inj (λ x, x + - lo)). fold (Qcminus lo lo). fold (Qcminus hi lo).
  by rewrite Heq, Qcminus_diag.
Qed.

Lemma unit_row_bounds (lo hi q : Qc) :
  lo < hi → lo ≤ q ≤ hi → 0 ≤ (q - lo) / (hi - lo) ≤ 1.
Proof.
  intros Hlt [Hlo Hhi].
  assert (0 < hi - lo) as Hd.
  { rewrite <-(Qcminus_diag lo). unfold Qcminus. by apply Qcplus_lt_mono_r. }
  assert (hi - lo ≠ 0) as Hd0 by (by apply not_eq_sym, Qclt_not_eq).
  split.
  - rewrite <-(Qcdiv_0_l (hi - lo)). apply Qcdiv_le_mono; [done|].
    rewrite <-(Qcminus_diag lo). by apply Qcminus_le_mono.
  - rewrite <-(Qcdiv_diag (hi - lo) Hd0). apply Qcdiv_le_mono; [done|].
    by apply Qcminus_le_mono.
Qed.

End ExactUnit.




Lemma arguments_unchanged_witness :
  Heap.min_mag 1%positive "a" Float64.test_heap
    = Some (min_mag Float64.test_table "a", Float64.test_heap) ∧
  Heap.max_mag 1%positive "a" Float64.test_heap
    = Some (max_mag Float64.test_table "a", Float64.test_heap) ∧
  Heap.mean_mag 1%positive "a" Float64.test_heap
    = Some (mean_mag Float64.test_table "a", Float64.test_heap) ∧
  ∃ h', Heap.normalize_lc 1%positive "a" Float64.test_heap
          = Some (normalize_lc Float64.test_table "a", h') ∧
        h' !! 1%positive = Some Float64.test_table ∧
        ∀ l o', Float64.test_heap !! l = Some o' → h' !! l = Some o'.
Proof.
  apply (arguments_unchanged spec_float _ Float64.test_heap 1%positive "a"
    Float64.test_table).
  reflexivity.
Defined.

(** * Further properties of the module *)

(** ** Which error, and when *)

Section Outcomes.
Context {A : Type} `{Dtype A}.
Implicit Types (df : DataFrame A) (col : Series A) (c : string).

Lemma frame_getitem_Raise df c e :
  frame_getitem df c = Raise e ↔ e = KeyError c ∧ c ∉ df.*1.
Proof.
  induction df as [|[k col] df IH]; simpl.
  - split; [intros [= <-]|intros [-> _]]; [|done].
    split; [done|]. apply not_elem_of_nil.
  - case_decide as Hk; subst.
    + split; [done|]. intros [_ Hc]. destruct Hc. by left.
    + rewrite IH, not_elem_of_cons. split; [by intros [-> ?]|].
      by intros [-> [_ ?]].
Qed.

Lemma frame_getitem_Ok df c :
  c ∈ df.*1 → ∃ col, frame_getitem df c = Ok col.
Proof.
  intros Hc. destruct (frame_getitem df c) as [col|e] eqn:E; [by eexists|].
  by apply frame_getitem_Raise in E as [_ ?].
Qed.

Lemma Series_min_type_errors col : type_errors (Series_min col).
Proof.
  unfold Series_min. intros e.
  destruct (numbers col); [done|]. destruct (texts col); [done|]. by intros [= <-].
Qed.

Lemma Series_max_type_errors col : type_errors (Series_max col).
Proof.
  unfold Series_max. intros e.
  destruct (numbers col); [done|]. destruct (texts col); [done|]. by intros [= <-].
Qed.

Lemma Series_mean_type_errors col : type_errors (Series_mean col).
Proof.
  unfold Series_mean. intros e. destruct (numbers col); [done|]. by intros [= <-].
Qed.

(** A reducer [data[c].f()] on a table reports a missing column, and
    nothing else, as a [KeyError]. *)
Lemma reducer_KeyError df c (f : Series A → result (scalar A)) k :
  (∀ col, type_errors (f col)) →
  getitem (PyFrame df) c ≫= f = Raise (KeyError k) ↔ k = c ∧ c ∉ df.*1.
Proof.
  intros Hf. simpl. rewrite bind_Raise, frame_getitem_Raise. split.
  - intros [[[= ->] Hc]|(col & _ & Hcol)]; [done|].
    by apply Hf in Hcol.
  - intros [-> Hc]. by left.
Qed.

Lemma frame_sub_names df (s : scalar A) df' :
  frame_sub df s = Ok df' → df'.*1 = df.*1.
Proof.
  unfold frame_sub. revert df'.
  induction df as [|[k col] df IH]; intros df'; cbn -[Series_sub].
  - by intros [= <-].
  - destruct (Series_sub col s) as [col'|e]; cbn -[Series_sub]; [|done].
    intros (df'' & Hdf'' & [= <-])%bind_Ok. simpl. f_equal. by apply IH.
Qed.

End Outcomes.

(** X1.  On a table, each of the three reducers raises a [KeyError]
    exactly when the table has no column of the requested name, and the
    key it reports is that name. *)
Theorem reducers_missing_column :
  ∀ (A : Type) (D : Dtype A) (df : DataFrame A) (mag_col k : string),
    (min_mag (PyFrame df) mag_col = Raise (KeyError k) ↔ k = mag_col ∧ mag_col ∉ df.*1) ∧
    (max_mag (PyFrame df) mag_col = Raise (KeyError k) ↔ k = mag_col ∧ mag_col ∉ df.*1) ∧
    (mean_mag (PyFrame df) mag_col = Raise (KeyError k) ↔ k = mag_col ∧ mag_col ∉ df.*1).
Proof.
  intros A D df c k. split; [|split].
  - apply (reducer_KeyError df c Series_min k), Series_min_type_errors.
  - apply (reducer_KeyError df c Series_max k), Series_max_type_errors.
  - apply (reducer_KeyError df c Series_mean k), Series_mean_type_errors.
Qed.

(** X2.  What [normalize_lc] does with a table is decided by two
    questions.  Without a column of the requested name it raises the
    [KeyError] of that name; with the column and a cell of text anywhere
    in the table it raises [TypeError]; with the column and numbers only
    it returns the normalised column. *)
Theorem normalize_lc_outcome :
  ∀ (A : Type) (D : Dtype A) (df : DataFrame A) (mag_col : string),
    (mag_col ∉ df.*1 →
       normalize_lc (PyFrame df) mag_col = Raise (KeyError mag_col)) ∧
    (mag_col ∈ df.*1 → ¬ numeric_frame df →
       normalize_lc (PyFrame df) mag_col = Raise TypeError) ∧
    (mag_col ∈ df.*1 → numeric_frame df →
       ∃ xs, frame_getitem df mag_col = Ok (Num <$> xs) ∧
             normalize_lc (PyFrame df) mag_col = Ok (Num <$> normalized xs)).
Proof.
  intros A D df c. repeat split.
  - intros Hc. unfold normalize_lc, min_mag. simpl.
    by rewrite (proj2 (frame_getitem_Raise df c (KeyError c)) (conj eq_refl Hc)).
  - intros Hc Hdf. unfold normalize_lc, min_mag. simpl.
    destruct (frame_getitem_Ok df c Hc) as [col ->]. simpl.
    destruct (type_errors_cases _ (Series_min_type_errors col)) as [[lo ->]| ->];
      [|done].
    simpl. by rewrite frame_sub_text.
  - intros Hc Hdf. destruct (frame_getitem_Ok df c Hc) as [col Hcol].
    destruct (numeric_frame_getitem df c col Hdf Hcol) as [xs ->].
    exists xs. split; [done|]. by apply normalize_lc_numeric.
Qed.

Lemma normalize_lc_outcome_witness :
  normalize_lc Float64.test_table "d" = Raise (KeyError "d").
Proof.
  apply (proj1 (normalize_lc_outcome spec_float _ Float64.test_frame "d")).
  by vm_compute; intros H; repeat (apply elem_of_cons in H as [H|H]; [done|]);
    apply elem_of_nil in H.
Defined.

(** ** Rows without a value, and the order of the rows *)

Section SkipNa.
Context {A : Type} `{Dtype A}.
Implicit Types (xs ys : list A).


Lemma notna_Permutation xs ys : xs ≡ₚ ys → notna xs ≡ₚ notna ys.
Proof.
  unfold notna. induction 1 as [|x xs ys _ IH|x y xs|xs ys zs _ IH1 _ IH2].
  - done.
  - simpl. destruct (d_isnan x); simpl; [done|by constructor].
  - simpl. destruct (d_isnan x), (d_isnan y); simpl; try done. apply perm_swap.
  - by etrans.
Qed.

Lemma notna_elem_of (x : A) xs :
  x ∈ notna xs ↔ x ∈ xs ∧ d_isnan x = false.
Proof.
  unfold notna. rewrite !list_elem_of_In, filter_In.
  by rewrite negb_true_iff.
Qed.

End SkipNa.



(** In binary64 the mean of nine rows, the first of them NaN, is
    17.86375, and the mean of the other eight rows alone is
    17.863750000000003. *)
Lemma mean_mag_nan_row_binary64 :
  mean_mag (PyFrame Float64.nine_rows) "mag"
    = Ok (Num (S754_finite false 5028198615214981 (-48))) ∧
  mean_mag (PyFrame Float64.eight_rows) "mag"
    = Ok (Num (S754_finite false 5028198615214982 (-48))).
Proof. split; vm_compute; reflexivity. Qed.

(** X4.  On a numeric column with at least one value, [min_mag] and
    [max_mag] return values of the column itself, neither of them NaN:
    the first is below and the second above every value of the column
    that is not NaN.  This holds for every arithmetic whose [<=] is a
    total preorder, binary64 included. *)
Theorem extrema_attained :
  ∀ (A : Type) (D : Dtype A) (O : OrderLaws A) (df : DataFrame A)
    (c : string) (xs : list A),
    frame_getitem df c = Ok (Num <$> xs) → notna xs ≠ [] →
    ∃ lo hi,
      min_mag (PyFrame df) c = Ok (Num lo) ∧
      max_mag (PyFrame df) c = Ok (Num hi) ∧
      lo ∈ xs ∧ hi ∈ xs ∧ d_isnan lo = false ∧ d_isnan hi = false ∧
      ∀ x, x ∈ xs → d_isnan x = false → d_le lo x = true ∧ d_le x hi = true.
Proof.
  intros A D O df c xs Hc Hne.
  destruct (reduce_minimum_spec _ Hne (notna_Forall xs)) as [Hlo Hlb].
  destruct (reduce_maximum_spec _ Hne (notna_Forall xs)) as [Hhi Hub].
  apply notna_elem_of in Hlo as [Hlo Hlona], Hhi as [Hhi Hhina].
  exists (reduce minimum (notna xs)), (reduce maximum (notna xs)).
  unfold min_mag, max_mag, Series_min, Series_max, getitem.
  rewrite Hc. cbn [mbind result_bind]. rewrite numbers_fmap.
  repeat split; try done.
  - apply Hlb. by apply notna_elem_of.
  - apply Hub. by apply notna_elem_of.
Qed.

Lemma extrema_attained_witness :
  ∃ lo hi,
    min_mag Float64.test_table "a" = Ok (Num lo) ∧
    max_mag Float64.test_table "a" = Ok (Num hi) ∧
    lo ∈ [Float64.of_Z 1; Float64.of_Z 7; Float64.of_Z 3] ∧
    hi ∈ [Float64.of_Z 1; Float64.of_Z 7; Float64.of_Z 3] ∧
    d_isnan lo = false ∧ d_isnan hi = false ∧
    ∀ x, x ∈ [Float64.of_Z 1; Float64.of_Z 7; Float64.of_Z 3] →
      d_isnan x = false → d_le lo x = true ∧ d_le x hi = true.
Proof.
  apply (extrema_attained spec_float _ _ Float64.test_frame "a"
    [Float64.of_Z 1; Float64.of_Z 7; Float64.of_Z 3]).
  - reflexivity.
  - by vm_compute.
Defined.

(** The order of the rows *)

Section RowOrder.
Context {A : Type} `{OrderLaws A}.
Implicit Types (xs ys : list A).

(** Two orders of the same rows have extreme values that [<=] does not
    tell apart. *)
Lemma reduce_minimum_Permutation xs ys :
  xs ≡ₚ ys → notna xs ≠ [] →
  same_order (reduce minimum (notna xs)) (reduce minimum (notna ys)).
Proof.
  intros Hp%notna_Permutation Hne.
  assert (notna ys ≠ []) as Hne'.
  { intros Hys. rewrite Hys in Hp. by apply Permutation_nil_r in Hp. }
  destruct (reduce_minimum_spec _ Hne (notna_Forall xs)) as [Hx Hxlb].
  destruct (reduce_minimum_spec _ Hne' (notna_Forall ys)) as [Hy Hylb].
  split.
  - apply Hxlb. by rewrite Hp.
  - apply Hylb. by rewrite <-Hp.
Qed.

Lemma reduce_maximum_Permutation xs ys :
  xs ≡ₚ ys → notna xs ≠ [] →
  same_order (reduce maximum (notna xs)) (reduce maximum (notna ys)).
Proof.
  intros Hp%notna_Permutation Hne.
  assert (notna ys ≠ []) as Hne'.
  { intros Hys. rewrite Hys in Hp. by apply Permutation_nil_r in Hp. }
  destruct (reduce_maximum_spec _ Hne (notna_Forall xs)) as [Hx Hxub].
  destruct (reduce_maximum_spec _ Hne' (notna_Forall ys)) as [Hy Hyub].
  split.
  - apply Hyub. by rewrite <-Hp.
  - apply Hxub. by rewrite Hp.
Qed.

End RowOrder.

Module ExactOrder.
Import Exact ExactFacts ExactSum ExactColumns.
Local Open Scope Qc_scope.

(** Without rounding, the sum of a column does not depend on the order
    of its rows. *)
Lemma fold_add_Permutation (xs ys : list xnum) (a : xnum) :
  xs ≡ₚ ys → fold_left add xs a = fold_left add ys a.
Proof.
  intros Hp. revert a.
  induction Hp as [|x xs ys _ IH|x y xs|xs ys zs _ IH1 _ IH2]; intros a.
  - done.
  - apply IH.
  - cbn [fold_left]. f_equal.
    by rewrite !add_assoc, (add_comm x y).
  - by rewrite IH1.
Qed.

Lemma nanmean_Permutation (xs ys : list xnum) :
  xs ≡ₚ ys → nanmean xs = nanmean ys.
Proof.
  intros Hp%notna_Permutation. rewrite !nanmean_exact.
  rewrite (fold_add_Permutation _ _ _ Hp), (Permutation_length Hp).
  destruct (notna xs) as [|x vs] eqn:Hxs.
  - apply Permutation_nil_l in Hp. by rewrite <-Hp.
  - destruct (notna ys) as [|y ws] eqn:Hys; [|done].
    by apply Permutation_nil_r in Hp.
Qed.

Lemma reduce_minimum_exact_Permutation (xs ys : list xnum) :
  xs ≡ₚ ys → reduce minimum (notna xs) = reduce minimum (notna ys).
Proof.
  intros Hp. destruct (decide (notna xs = [])) as [Hxs|Hne].
  - pose proof (notna_Permutation _ _ Hp) as Hp'. rewrite Hxs in Hp'.
    apply Permutation_nil_l in Hp'. by rewrite Hxs, <-Hp'.
  - destruct (reduce_minimum_Permutation xs ys Hp Hne). by apply le_antisym.
Qed.

Lemma reduce_maximum_exact_Permutation (xs ys : list xnum) :
  xs ≡ₚ ys → reduce maximum (notna xs) = reduce maximum (notna ys).
Proof.
  intros Hp. destruct (decide (notna xs = [])) as [Hxs|Hne].
  - pose proof (notna_Permutation _ _ Hp) as Hp'. rewrite Hxs in Hp'.
    apply Permutation_nil_l in Hp'. by rewrite Hxs, <-Hp'.
  - destruct (reduce_maximum_Permutation xs ys Hp Hne). by apply le_antisym.
Qed.

End ExactOrder.

(** X5.  The reducers do not depend on the order of the rows.  In every
    arithmetic whose [<=] is a total preorder, reordering the rows of a
    column with at least one value gives a minimum and a maximum that
    [<=] does not tell apart from the former ones (in binary64 they can
    differ in the sign of a zero); without rounding, the minimum, the
    maximum and the mean are the same. *)
Theorem reducers_row_order :
  (∀ (A : Type) (D : Dtype A) (O : OrderLaws A) (df df' : DataFrame A)
     (c : string) (xs ys : list A),
     frame_getitem df c = Ok (Num <$> xs) →
     frame_getitem df' c = Ok (Num <$> ys) →
     xs ≡ₚ ys → notna xs ≠ [] →
     ∃ lo lo' hi hi',
       min_mag (PyFrame df) c = Ok (Num lo) ∧
       min_mag (PyFrame df') c = Ok (Num lo') ∧
       max_mag (PyFrame df) c = Ok (Num hi) ∧
       max_mag (PyFrame df') c = Ok (Num hi') ∧
       same_order lo lo' ∧ same_order hi hi') ∧
  (∀ (df df' : DataFrame Exact.xnum) (c : string) (xs ys : list Exact.xnum),
     frame_getitem df c = Ok (Num <$> xs) →
     frame_getitem df' c = Ok (Num <$> ys) →
     xs ≡ₚ ys →
     min_mag (PyFrame df') c = min_mag (PyFrame df) c ∧
     max_mag (PyFrame df') c = max_mag (PyFrame df) c ∧
     mean_mag (PyFrame df') c = mean_mag (PyFrame df) c).
Proof.
  split.
  - intros A D O df df' c xs ys Hc Hc' Hp Hne.
    exists (reduce minimum (notna xs)), (reduce minimum (notna ys)),
      (reduce maximum (notna xs)), (reduce maximum (notna ys)).
    unfold min_mag, max_mag, Series_min, Series_max, getitem.
    rewrite Hc, Hc'. cbn [mbind result_bind]. rewrite !numbers_fmap.
    do 4 (split; [done|]). split.
    + by apply reduce_minimum_Permutation.
    + by apply reduce_maximum_Permutation.
  - intros df df' c xs ys Hc Hc' Hp.
    unfold min_mag, max_mag, mean_mag, Series_min, Series_max, Series_mean, getitem.
    rewrite Hc, Hc'. cbn [mbind result_bind]. rewrite !numbers_fmap.
    rewrite (ExactOrder.reduce_minimum_exact_Permutation _ _ Hp).
    rewrite (ExactOrder.reduce_maximum_exact_Permutation _ _ Hp).
    by rewrite (ExactOrder.nanmean_Permutation _ _ Hp).
Qed.

Lemma reducers_row_order_witness :
  min_mag (PyFrame Exact.reversed_frame) "a" = min_mag Exact.test_table "a" ∧
  max_mag (PyFrame Exact.reversed_frame) "a" = max_mag Exact.test_table "a" ∧
  mean_mag (PyFrame Exact.reversed_frame) "a" = mean_mag Exact.test_table "a".
Proof.
  apply (proj2 reducers_row_order Exact.test_frame Exact.reversed_frame "a"
    [Exact.of_Z 1; Exact.of_Z 7; Exact.of_Z 3]
    [Exact.of_Z 3; Exact.of_Z 7; Exact.of_Z 1]).
  - reflexivity.
  - reflexivity.
  - apply (Permutation_rev [Exact.of_Z 1; Exact.of_Z 7; Exact.of_Z 3]).
Defined.

(** ** The outcome of [calc_stats] *)

Section Bands.
Context {A : Type} `{Dtype A}.
Implicit Types (lc : gmap string (pyobj A)) (bands : list string).
Implicit Types (stats : gmap string (gmap string (scalar A))).

(** The three statistics of a band are returned exactly for a table
    whose magnitude column is numeric. *)
Lemma band_stat_is_Ok lc c b :
  is_Ok (band_stat lc c b) ↔
  ∃ (df : DataFrame A) (xs : list A),
    lc !! b = Some (PyFrame df) ∧ frame_getitem df c = Ok (Num <$> xs).
Proof.
  split.
  - intros [st Hst].
    apply band_stat_Ok in Hst as (t & x & y & z & Ht & _ & Hy & _ & _).
    destruct t as [s|df]; [done|]. exists df.
    unfold mean_mag, Series_mean in Hy. simpl in Hy.
    destruct (frame_getitem df c) as [col|e]; [|done]. simpl in Hy.
    destruct (numbers col) as [xs|] eqn:Hxs; [|done].
    exists xs. split; [done|]. f_equal. by apply numbers_Some.
  - intros (df & xs & Hb & Hc). unfold band_stat, dict_getitem. rewrite Hb.
    unfold max_mag, mean_mag, min_mag, Series_max, Series_mean, Series_min.
    simpl. rewrite Hc. simpl. rewrite numbers_fmap. by eexists.
Qed.

Lemma band_stat_str lc c b s :
  lc !! b = Some (PyStr s) → band_stat lc c b = Raise TypeError.
Proof. intros Hb. unfold band_stat, dict_getitem. by rewrite Hb. Qed.

Lemma band_stat_no_column lc c b (df : DataFrame A) :
  lc !! b = Some (PyFrame df) → c ∉ df.*1 →
  band_stat lc c b = Raise (KeyError c).
Proof.
  intros Hb Hc. unfold band_stat, dict_getitem, max_mag. rewrite Hb. simpl.
  by rewrite (proj2 (frame_getitem_Raise df c (KeyError c)) (conj eq_refl Hc)).
Qed.

Lemma band_stat_text lc c b (df : DataFrame A) (col : Series A) :
  lc !! b = Some (PyFrame df) → frame_getitem df c = Ok col →
  numbers col = None →
  band_stat lc c b = Raise TypeError.
Proof.
  intros Hb Hc Hcol. unfold band_stat, dict_getitem. rewrite Hb.
  unfold max_mag, mean_mag, Series_max, Series_mean. simpl.
  rewrite Hc. simpl. rewrite Hcol. by destruct (texts col).
Qed.

(** The loop stops at the first band that fails, with its error. *)
Lemma calc_stats_first_Raise lc c pre b post e :
  (∀ b', b' ∈ pre → is_Ok (band_stat lc c b')) →
  band_stat lc c b = Raise e →
  calc_stats lc (pre ++ b :: post) c = Raise e.
Proof.
  intros Hpre Hb. unfold calc_stats. rewrite foldlM_app.
  destruct (foldlM_calc_stats_total lc c pre ∅ Hpre) as [stats ->].
  simpl. rewrite calc_stats_body_band_stat. by rewrite Hb.
Qed.

(** The frame [calc_stats] returns, entry by entry. *)
Lemma calc_stats_Ok_iff lc c bands stats :
  calc_stats lc bands c = Ok stats ↔
  (∀ b, b ∈ bands → ∃ st, band_stat lc c b = Ok st ∧ stats !! b = Some st) ∧
  (∀ b, b ∉ bands → stats !! b = None).
Proof.
  split.
  - unfold calc_stats. intros (stats' & Hfold & Hst)%bind_Ok.
    pose proof (calc_stats_foldlM _ _ _ _ Hfold) as Hcalc.
    unfold calc_stats in Hcalc. rewrite Hfold in Hcalc. simpl in Hcalc, Hst.
    rewrite Hcalc in Hst. injection Hst as <-.
    destruct (foldlM_calc_stats_Ok _ _ _ _ _ Hfold) as [Hin Hout].
    split; [done|]. intros b Hb. by rewrite (Hout b Hb).
  - intros [Hin Hout].
    destruct (foldlM_calc_stats_total lc c bands ∅) as [stats' Hfold].
    { intros b Hb. destruct (Hin b Hb) as (st & Hst & _). by exists st. }
    rewrite (calc_stats_foldlM _ _ _ _ Hfold). f_equal.
    destruct (foldlM_calc_stats_Ok _ _ _ _ _ Hfold) as [Hin' Hout'].
    apply map_eq. intros b. destruct (decide (b ∈ bands)) as [Hb|Hb].
    + destruct (Hin b Hb) as (st & Hst & ->).
      destruct (Hin' b Hb) as (st' & Hst' & ->). congruence.
    + by rewrite (Hout b Hb), (Hout' b Hb).
Qed.

Lemma calc_stats_is_Ok lc c bands :
  is_Ok (calc_stats lc bands c) ↔ ∀ b, b ∈ bands → is_Ok (band_stat lc c b).
Proof.
  split.
  - intros [stats [Hin _]%calc_stats_Ok_iff] b Hb.
    destruct (Hin b Hb) as (st & Hst & _). by exists st.
  - intros Hall.
    destruct (foldlM_calc_stats_total lc c bands ∅ Hall) as [stats Hfold].
    exists stats. by apply calc_stats_foldlM.
Qed.

(** The loop looks up the listed bands only. *)
Lemma foldlM_calc_stats_ext lc lc' c bands stats :
  (∀ b, b ∈ bands → lc !! b = lc' !! b) →
  foldlM (calc_stats_body lc c) stats bands
  = foldlM (calc_stats_body lc' c) stats bands.
Proof.
  revert stats. induction bands as [|b bands IH]; intros stats Hlc; [done|].
  cbn [foldlM].
  assert (calc_stats_body lc c stats b = calc_stats_body lc' c stats b) as ->.
  { unfold calc_stats_body, dict_getitem. rewrite (Hlc b); [done|by left]. }
  destruct (calc_stats_body lc' c stats b) as [stats'|e]; [|done].
  cbn [mbind result_bind]. apply IH. intros b' Hb'. apply Hlc. by right.
Qed.

End Bands.

(** X6.  [calc_stats] returns a frame exactly when every listed band is
    a table of [lc] whose magnitude column exists and is numeric. *)
Theorem calc_stats_succeeds_iff :
  ∀ (A : Type) (D : Dtype A) (lc : gmap string (pyobj A)) (bands : list string)
    (mag_col : string),
    is_Ok (calc_stats lc bands mag_col) ↔
    ∀ b, b ∈ bands →
      ∃ (df : DataFrame A) (xs : list A),
        lc !! b = Some (PyFrame df) ∧
        frame_getitem df mag_col = Ok (Num <$> xs).
Proof.
  intros A D lc bands c. rewrite calc_stats_is_Ok.
  split; intros Hall b Hb; apply band_stat_is_Ok; by apply Hall.
Qed.

(** X7.  The loop of [calc_stats] stops at the first band that fails,
    and raises the error of that band: [TypeError] when the entry of the
    band is a string, the [KeyError] of the column name when the table of
    the band has no such column, and [TypeError] when that column holds
    text.  (The band that [lc] does not hold is C4.) *)
Theorem calc_stats_first_failure :
  ∀ (A : Type) (D : Dtype A) (lc : gmap string (pyobj A))
    (pre : list string) (b : string) (post : list string) (mag_col : string),
    (∀ b', b' ∈ pre →
       ∃ (df : DataFrame A) (xs : list A),
         lc !! b' = Some (PyFrame df) ∧
         frame_getitem df mag_col = Ok (Num <$> xs)) →
    (∀ s, lc !! b = Some (PyStr s) →
       calc_stats lc (pre ++ b :: post)%list mag_col = Raise TypeError) ∧
    (∀ df : DataFrame A, lc !! b = Some (PyFrame df) → mag_col ∉ df.*1 →
       calc_stats lc (pre ++ b :: post)%list mag_col = Raise (KeyError mag_col)) ∧
    (∀ (df : DataFrame A) (col : Series A), lc !! b = Some (PyFrame df) →
       frame_getitem df mag_col = Ok col → numbers col = None →
       calc_stats lc (pre ++ b :: post)%list mag_col = Raise TypeError).
Proof.
  intros A D lc pre b post c Hpre.
  assert (∀ b', b' ∈ pre → is_Ok (band_stat lc c b')) as Hpre'.
  { intros b' Hb'. apply band_stat_is_Ok. by apply Hpre. }
  split; [|split].
  - intros s Hb. apply calc_stats_first_Raise; [done|]. by eapply band_stat_str.
  - intros df Hb Hc. apply calc_stats_first_Raise; [done|].
    by eapply band_stat_no_column.
  - intros df col Hb Hc Hcol. apply calc_stats_first_Raise; [done|].
    by eapply band_stat_text.
Qed.

Lemma calc_stats_first_failure_witness :
  calc_stats Float64.lc_g_r ["g"; "r"] "a" = Raise (KeyError "a").
Proof.
  assert (∀ b', b' ∈ ["g"] →
    ∃ (df : DataFrame spec_float) (xs : list spec_float),
      Float64.lc_g_r !! b' = Some (PyFrame df) ∧
      frame_getitem df "a" = Ok (Num <$> xs)) as Hpre.
  { intros b' ->%list_elem_of_singleton.
    exists Float64.test_frame, [Float64.of_Z 1; Float64.of_Z 7; Float64.of_Z 3].
    by split. }
  apply (proj1 (proj2 (calc_stats_first_failure spec_float _ Float64.lc_g_r
    ["g"] "r" [] "a" Hpre)) [("mag", [Str "17.2"; Str ">21.5"])]).
  - reflexivity.
  - intros Hin. apply list_elem_of_singleton in Hin. discriminate Hin.
Defined.

(** X8.  Only the set of listed bands matters for the frame that is
    returned: listing the bands in another order, or one of them twice,
    gives the same entry [result[band][statistic]] for every band and
    statistic. *)
Theorem calc_stats_bands_as_set :
  ∀ (A : Type) (D : Dtype A) (lc : gmap string (pyobj A))
    (bands bands' : list string) (mag_col : string) (stats : StatsFrame A),
    (∀ b, b ∈ bands ↔ b ∈ bands') →
    calc_stats lc bands mag_col = Ok stats →
    calc_stats lc bands' mag_col = Ok stats.
Proof.
  intros A D lc bands bands' c stats Hset [Hin Hout]%calc_stats_Ok_iff.
  apply calc_stats_Ok_iff. split.
  - intros b Hb. apply Hin. by apply Hset.
  - intros b Hb. apply Hout. by rewrite Hset.
Qed.

Lemma calc_stats_bands_as_set_witness :
  ∃ stats,
    calc_stats Float64.lc_g ["g"] "a" = Ok stats ∧
    calc_stats Float64.lc_g ["g"; "g"] "a" = Ok stats.
Proof.
  eexists. split; [reflexivity|].
  apply (calc_stats_bands_as_set spec_float _ Float64.lc_g ["g"] ["g"; "g"] "a").
  - intros b. rewrite !elem_of_cons. tauto.
  - reflexivity.
Defined.

(** X9.  [calc_stats] looks at the listed bands only: two collections
    that hold the same tables for the listed bands give the same result,
    frame or error, whatever else they hold. *)
Theorem calc_stats_listed_bands_only :
  ∀ (A : Type) (D : Dtype A) (lc lc' : gmap string (pyobj A))
    (bands : list string) (mag_col : string),
    (∀ b, b ∈ bands → lc !! b = lc' !! b) →
    calc_stats lc bands mag_col = calc_stats lc' bands mag_col.
Proof.
  intros A D lc lc' bands c Hlc. unfold calc_stats.
  by rewrite (foldlM_calc_stats_ext lc lc' c bands ∅ Hlc).
Qed.

Lemma calc_stats_listed_bands_only_witness :
  calc_stats Float64.lc_g ["g"] "a" = calc_stats Float64.lc_g_r ["g"] "a".
Proof.
  apply (calc_stats_listed_bands_only spec_float _ Float64.lc_g Float64.lc_g_r).
  intros b ->%list_elem_of_singleton. reflexivity.
Defined.

(** ** What [normalize_lc] returns *)

Section Returned.
Context {A : Type} `{Dtype A}.

Lemma numeric_frame_dec (df : DataFrame A) :
  numeric_frame df ∨ ¬ numeric_frame df.
Proof.
  unfold numeric_frame, numeric_series.
  destruct (decide (Forall (λ kc : string * Series A, is_Some (numbers kc.2)) df));
    auto.
Qed.

(** A result comes from a table of numbers, and is its normalised
    column. *)
Lemma normalize_lc_Ok_inv (df : DataFrame A) c lc :
  normalize_lc (PyFrame df) c = Ok lc →
  ∃ xs, numeric_frame df ∧ frame_getitem df c = Ok (Num <$> xs) ∧
        lc = Num <$> normalized xs.
Proof.
  intros Hlc. destruct (numeric_frame_dec df) as [Hdf|Hdf].
  - destruct (frame_getitem df c) as [col|e] eqn:Hc.
    + destruct (numeric_frame_getitem df c col Hdf Hc) as [xs ->]. exists xs.
      rewrite (normalize_lc_numeric df c xs Hdf Hc) in Hlc.
      by injection Hlc as <-.
    + unfold normalize_lc, min_mag in Hlc. simpl in Hlc. by rewrite Hc in Hlc.
  - destruct (normalize_lc_text df c Hdf) as [e He]. congruence.
Qed.

End Returned.

Section Filled.
Context {A : Type} `{NanLaws A}.

Lemma fill_notnan (q : A) : d_isnan (fill q) = false.
Proof. unfold fill. destruct (d_isnan q) eqn:Hq; [apply isnan_zero|done]. Qed.

Lemma normalized_nan_row (xs : list A) i x :
  xs !! i = Some x → d_isnan x = true → normalized xs !! i = Some d_zero.
Proof.
  intros Hi Hx. unfold normalized. rewrite list_lookup_fmap, Hi. simpl.
  f_equal. unfold fill. by rewrite (isnan_div_l _ _ (isnan_sub_l _ _ Hx)).
Qed.

End Filled.

(** X10.  [normalize_lc] never returns a NaN or a text: every cell of a
    result is a number that is not NaN, and a row whose magnitude is NaN
    gets 0.0.  This holds in binary64 as in every arithmetic with the
    laws of NaN. *)
Theorem normalize_lc_no_nan :
  ∀ (A : Type) (D : Dtype A) (L : NanLaws A) (df : DataFrame A)
    (c : string) (lc : Series A),
    normalize_lc (PyFrame df) c = Ok lc →
    (∀ cell, cell ∈ lc → ∃ y, cell = Num y ∧ d_isnan y = false) ∧
    (∀ col i x, frame_getitem df c = Ok col → col !! i = Some (Num x) →
       d_isnan x = true → lc !! i = Some (Num d_zero)).
Proof.
  intros A D L df c lc (xs & _ & Hc & ->)%normalize_lc_Ok_inv. split.
  - intros cell (y & -> & Hy)%list_elem_of_fmap. exists y. split; [done|].
    unfold normalized in Hy. apply list_elem_of_fmap in Hy as (x & -> & _).
    apply fill_notnan.
  - intros col i x Hcol Hi Hx. rewrite Hc in Hcol. injection Hcol as <-.
    apply list_lookup_fmap_Some in Hi as (x' & [= <-] & Hxi).
    rewrite (list_lookup_fmap Num (normalized xs) i).
    by rewrite (normalized_nan_row xs i x Hxi Hx).
Qed.

Lemma normalize_lc_no_nan_witness :
  normalize_lc (PyFrame Float64.gap_frame) "mag"
    = Ok [Num (Float64.of_Z 1); Num (S754_zero false); Num (S754_zero false)] ∧
  [Num (Float64.of_Z 1); Num (S754_zero false); Num (S754_zero false)] !! 1%nat
    = Some (Num (S754_zero false)).
Proof.
  assert (normalize_lc (PyFrame Float64.gap_frame) "mag"
    = Ok [Num (Float64.of_Z 1); Num (S754_zero false); Num (S754_zero false)])
    as Hlc by (vm_compute; reflexivity).
  split; [done|].
  apply (proj2 (normalize_lc_no_nan spec_float _ _ Float64.gap_frame "mag" _ Hlc)
    [Num (Float64.of_decimal 175 1); Num S754_nan; Num (Float64.of_Z 16)]
    1%nat S754_nan); reflexivity.
Defined.

(** ** The normalised column without rounding *)

Module ExactNormal.
Import Exact ExactFacts ExactColumns.
Local Open Scope Qc_scope.

Lemma fill_div_nan (y : xnum) : fill (div y XNaN) = XFin 0.
Proof. by destruct y as [p|[]|]. Qed.

(** A range that is not the difference of two finite numbers is
    infinite or NaN, and every quotient by it is remapped to zero. *)
Lemma fill_div_range (y hi lo : xnum) :
  ¬ (finite hi ∧ finite lo) → fill (div y (sub hi lo)) = XFin 0.
Proof.
  destruct hi as [h|[]|], lo as [l|[]|]; simpl; intros Hn;
    try (by destruct Hn); by destruct y as [p|[]|].
Qed.

Lemma fill_div_zero_zero (p q : Qc) :
  p = 0 → q = 0 → fill (div (XFin p) (XFin q)) = XFin 0.
Proof. intros -> ->. unfold div. by rewrite !decide_True. Qed.

Lemma Qcminus_pos (l h : Qc) : l < h → h - l ≠ 0.
Proof.
  intros Hlt Heq. apply (Qclt_not_eq _ _ Hlt).
  apply (inj (λ x, x + - l)). fold (Qcminus l l). fold (Qcminus h l).
  by rewrite Heq, ExactUnit.Qcminus_diag.
Qed.

(** What [normalize_lc] computes on a column of exact numbers, NaN and
    infinities included: zero in every row, or, when the values are
    finite and two of them differ, the place of each value between the
    smallest and the largest. *)
Lemma normalized_cases (xs : list xnum) :
  normalized xs = (λ _, XFin 0) <$> xs ∨
  ∃ l h, l < h ∧ XFin l ∈ xs ∧ XFin h ∈ xs ∧
    (∀ x, x ∈ xs → x = XNaN ∨ ∃ q, x = XFin q ∧ l ≤ q ≤ h) ∧
    normalized xs = rescale l h <$> xs.
Proof.
  unfold normalized. rewrite ExactRange.two_step_range_single_pass.
  unfold single_pass_range.
  change (@d_sub xnum exact) with sub. change (@d_div xnum exact) with div.
  destruct (decide (notna xs = [])) as [Hxs|Hne].
  { left. rewrite Hxs. apply list_fmap_ext. intros i x _. apply fill_div_nan. }
  destruct (reduce_minimum_spec _ Hne (notna_Forall xs)) as [Hlo Hlb].
  destruct (reduce_maximum_spec _ Hne (notna_Forall xs)) as [Hhi Hub].
  destruct (reduce minimum (notna xs)) as [l| |] eqn:El;
    [|left; apply list_fmap_ext; intros i x _;
      apply fill_div_range; by intros [_ []]..].
  destruct (reduce maximum (notna xs)) as [h| |] eqn:Eh;
    [|left; apply list_fmap_ext; intros i x _;
      apply fill_div_range; by intros [[] _]..].
  assert (∀ x, x ∈ xs → x = XNaN ∨ ∃ q, x = XFin q ∧ l ≤ q ≤ h) as Hb.
  { intros x Hx. destruct (isnan x) eqn:Hna; [left; by apply isnan_XNaN|].
    right. assert (x ∈ notna xs) as Hx' by (by apply notna_elem_of).
    pose proof (Hlb x Hx') as Hlx. pose proof (Hub x Hx') as Hxh.
    change (@d_le xnum exact) with le in Hlx, Hxh.
    destruct x as [q|[]|]; try done.
    exists q. split; [done|]. split; by apply le_XFin. }
  apply notna_elem_of in Hlo as [Hlo _], Hhi as [Hhi _].
  destruct (Qcle_lt_or_eq l h) as [Hlt|Heq].
  { destruct (Hb _ Hhi) as [|(q & [= <-] & ? & _)]; done. }
  - right. exists l, h. repeat split; try done.
    apply list_fmap_ext. intros i x Hi%list_elem_of_lookup_2.
    destruct (Hb x Hi) as [->|(q & -> & _)]; [done|].
    by apply ExactUnit.unit_row.
  - left. subst h. apply list_fmap_ext. intros i x Hi%list_elem_of_lookup_2.
    destruct (Hb x Hi) as [->|(q & -> & Hlq & Hql)]; [done|].
    assert (q = l) as -> by (by apply Qcle_antisym).
    apply fill_div_zero_zero; apply Qcplus_opp_r.
Qed.

Lemma rescale_bounds (l h : Qc) (x : xnum) :
  l < h → (x = XNaN ∨ ∃ q, x = XFin q ∧ l ≤ q ≤ h) →
  ∃ y, rescale l h x = XFin y ∧ 0 ≤ y ≤ 1.
Proof.
  intros Hlt [->|(q & -> & Hq)].
  - exists 0. by split.
  - eexists. split; [done|]. by apply ExactUnit.unit_row_bounds.
Qed.

Lemma rescale_mono (l h p q : Qc) :
  l < h → p ≤ q → (p - l) / (h - l) ≤ (q - l) / (h - l).
Proof.
  intros Hlt Hpq. apply Qcdiv_le_mono; [|by apply ExactUnit.Qcminus_le_mono].
  rewrite <-(ExactUnit.Qcminus_diag l). unfold Qcminus.
  by apply Qcplus_lt_mono_r.
Qed.

End ExactNormal.

(** X11.  Without rounding, every value [normalize_lc] returns is a
    finite number between 0 and 1, whatever the table holds: NaN,
    infinite magnitudes, a single row or a constant column included. *)
Theorem normalize_lc_within_unit_interval :
  ∀ (df : DataFrame Exact.xnum) (c : string) (lc : Series Exact.xnum),
    normalize_lc (PyFrame df) c = Ok lc →
    ∀ cell, cell ∈ lc → ∃ y : Qc, cell = Num (Exact.XFin y) ∧ (0 ≤ y ≤ 1)%Qc.
Proof.
  intros df c lc (xs & _ & _ & ->)%normalize_lc_Ok_inv cell
    (y & -> & Hy)%list_elem_of_fmap.
  destruct (ExactNormal.normalized_cases xs) as [Hz|(l & h & Hlt & _ & _ & Hb & Hn)].
  - rewrite Hz in Hy. apply list_elem_of_fmap in Hy as (x & -> & _).
    exists 0%Qc. by split.
  - rewrite Hn in Hy. apply list_elem_of_fmap in Hy as (x & -> & Hx).
    destruct (ExactNormal.rescale_bounds l h x Hlt (Hb x Hx)) as (y & -> & Hy).
    by exists y.
Qed.

Lemma normalize_lc_within_unit_interval_witness :
  ∃ lc, normalize_lc Exact.test_table "a" = Ok lc ∧
    ∀ cell, cell ∈ lc → ∃ y : Qc, cell = Num (Exact.XFin y) ∧ (0 ≤ y ≤ 1)%Qc.
Proof.
  eexists. split; [reflexivity|].
  apply (normalize_lc_within_unit_interval Exact.test_frame "a").
  reflexivity.
Defined.

Module ExactFixed.
Import Exact ExactFacts ExactColumns ExactNormal.
Local Open Scope Qc_scope.

Lemma normalized_zeros (xs : list xnum) :
  normalized ((λ _, XFin 0) <$> xs) = (λ _, XFin 0) <$> xs.
Proof.
  destruct xs as [|x xs]; [done|].
  rewrite (const_fmap (λ _, XFin 0) (x :: xs) (XFin 0)) by done.
  exact (normalized_replicate (length xs) (XFin 0)).
Qed.

(** The normalised values of a column of finite numbers with the
    bounds [l < h]. *)
Lemma normalized_fin_between (qs : list Qc) (l h : Qc) :
  l < h → l ∈ qs → h ∈ qs → (∀ q, q ∈ qs → l ≤ q ≤ h) →
  normalized (XFin <$> qs) = XFin <$> ((λ q, (q - l) / (h - l)) <$> qs).
Proof.
  intros Hlt Hl Hh Hb.
  assert (qs ≠ []) as Hne by (intros ->; by apply elem_of_nil in Hl).
  destruct (reduce_fin qs Hne) as (lo & hi & Hlo & Hhi & Hlo' & Hhi' & Hb').
  assert (lo = l) as -> by (apply Qcle_antisym; [by apply Hb'|by apply Hb]).
  assert (hi = h) as -> by (apply Qcle_antisym; [by apply Hb|by apply Hb']).
  unfold normalized. rewrite ExactRange.two_step_range_single_pass.
  unfold single_pass_range. rewrite notna_fin, Hlo, Hhi.
  rewrite <-!list_fmap_compose. apply list_fmap_ext. intros i q _. simpl.
  by apply ExactUnit.unit_row.
Qed.

Lemma Qcdiv_unit (q : Qc) : (q - 0) / (1 - 0) = q.
Proof.
  replace (q - 0) with q by ring. replace (1 - 0) with 1 by ring.
  unfold Qcdiv. rewrite <-(Qcmult_1_l (/ 1)), Qcmult_inv_r by done. ring.
Qed.

(** Normalising a normalised column changes nothing. *)
Lemma normalized_idemp (xs : list xnum) :
  normalized (normalized xs) = normalized xs.
Proof.
  destruct (normalized_cases xs) as [Hz|(l & h & Hlt & Hl & Hh & Hb & Hn)].
  { rewrite Hz. apply normalized_zeros. }
  rewrite Hn.
  set (f := λ x, match x with XFin q => (q - l) / (h - l) | _ => 0 end).
  assert (rescale l h <$> xs = XFin <$> (f <$> xs)) as ->.
  { rewrite <-list_fmap_compose. apply list_fmap_ext. intros i x _.
    by destruct x as [q|[]|]. }
  rewrite (normalized_fin_between (f <$> xs) 0 1).
  - f_equal. rewrite <-list_fmap_compose. apply list_fmap_ext. intros i x _.
    simpl. apply Qcdiv_unit.
  - done.
  - apply list_elem_of_fmap. exists (XFin l). split; [|done]. simpl.
    by rewrite ExactUnit.Qcminus_diag, ExactUnit.Qcdiv_0_l.
  - apply list_elem_of_fmap. exists (XFin h). split; [|done]. simpl.
    symmetry. by apply ExactUnit.Qcdiv_diag, Qcminus_pos.
  - intros q (x & -> & Hx)%list_elem_of_fmap.
    destruct (Hb x Hx) as [->|(p & -> & Hp)]; [done|].
    by apply ExactUnit.unit_row_bounds.
Qed.

End ExactFixed.

(** X12.  Without rounding, [normalize_lc] is idempotent: on a table of
    numbers whose magnitude column is a column [normalize_lc] returned,
    it returns that column again. *)
Theorem normalize_lc_idempotent :
  ∀ (df df' : DataFrame Exact.xnum) (c c' : string) (lc : Series Exact.xnum),
    normalize_lc (PyFrame df) c = Ok lc →
    numeric_frame df' → frame_getitem df' c' = Ok lc →
    normalize_lc (PyFrame df') c' = Ok lc.
Proof.
  intros df df' c c' lc (xs & _ & _ & ->)%normalize_lc_Ok_inv Hdf' Hc'.
  rewrite (normalize_lc_numeric df' c' _ Hdf' Hc').
  by rewrite ExactFixed.normalized_idemp.
Qed.

Lemma normalize_lc_idempotent_witness :
  ∃ lc, normalize_lc Exact.test_table "a" = Ok lc ∧
        normalize_lc (PyFrame [("norm", lc)]) "norm" = Ok lc.
Proof.
  eexists. split; [reflexivity|].
  apply (normalize_lc_idempotent Exact.test_frame _ "a" "norm").
  - reflexivity.
  - repeat constructor. by eexists.
  - reflexivity.
Defined.

(** X13.  Without rounding, [normalize_lc] keeps the order of the
    magnitudes: of two rows with finite magnitudes, the one with the
    smaller magnitude gets the smaller or the same value. *)
Theorem normalize_lc_keeps_order :
  ∀ (df : DataFrame Exact.xnum) (c : string) (col lc : Series Exact.xnum)
    (i j : nat) (p q : Qc),
    normalize_lc (PyFrame df) c = Ok lc →
    frame_getitem df c = Ok col →
    col !! i = Some (Num (Exact.XFin p)) →
    col !! j = Some (Num (Exact.XFin q)) →
    (p ≤ q)%Qc →
    ∃ y z : Qc, lc !! i = Some (Num (Exact.XFin y)) ∧
                lc !! j = Some (Num (Exact.XFin z)) ∧ (y ≤ z)%Qc.
Proof.
  intros df c col lc i j p q (xs & _ & Hc & ->)%normalize_lc_Ok_inv Hcol Hi Hj Hpq.
  rewrite Hc in Hcol. injection Hcol as <-.
  apply list_lookup_fmap_Some in Hi as (x & [= <-] & Hi).
  apply list_lookup_fmap_Some in Hj as (x & [= <-] & Hj).
  rewrite !(list_lookup_fmap Num (normalized xs)).
  destruct (ExactNormal.normalized_cases xs) as [->|(l & h & Hlt & _ & _ & _ & ->)].
  - exists 0%Qc, 0%Qc. by rewrite !list_lookup_fmap, Hi, Hj.
  - eexists _, _. rewrite !list_lookup_fmap, Hi, Hj. simpl.
    split; [done|]. split; [done|]. by apply ExactNormal.rescale_mono.
Qed.

Lemma normalize_lc_keeps_order_witness :
  ∃ lc, normalize_lc Exact.test_table "a" = Ok lc ∧
    ∃ y z : Qc, lc !! 0%nat = Some (Num (Exact.XFin y)) ∧
                lc !! 2%nat = Some (Num (Exact.XFin z)) ∧ (y ≤ z)%Qc.
Proof.
  eexists. split; [reflexivity|].
  apply (normalize_lc_keeps_order Exact.test_frame "a"
    [Num (Exact.of_Z 1); Num (Exact.of_Z 7); Num (Exact.of_Z 3)] _ 0 2
    (Qc_of_Z 1) (Qc_of_Z 3)); try reflexivity.
  by vm_compute.
Defined.

(** ** Zero point and unit of the magnitudes *)

(** A map of the values that keeps NaN and the order. *)
Section Monotone.
Context {A : Type} `{Dtype A}.
Variable f : A → A.
Hypothesis f_isnan : ∀ x, d_isnan (f x) = d_isnan x.
Hypothesis f_le : ∀ x y, d_le (f x) (f y) = d_le x y.
Hypothesis f_nan : f d_nan = d_nan.

Lemma notna_fmap (xs : list A) : notna (f <$> xs) = f <$> notna xs.
Proof.
  unfold notna. induction xs as [|x xs IH]; [done|].
  cbn [fmap list_fmap List.filter] in *. rewrite f_isnan.
  destruct (d_isnan x); cbn [negb fmap list_fmap]; by rewrite IH.
Qed.

Lemma fold_minimum_fmap (vs : list A) (a : A) :
  fold_left minimum (f <$> vs) (f a) = f (fold_left minimum vs a).
Proof.
  revert a. induction vs as [|v vs IH]; intros a; [done|].
  cbn [fmap list_fmap fold_left].
  assert (minimum (f a) (f v) = f (minimum a v)) as ->; [|apply IH].
  unfold minimum. rewrite f_le. by destruct (d_le v a).
Qed.

Lemma fold_maximum_fmap (vs : list A) (a : A) :
  fold_left maximum (f <$> vs) (f a) = f (fold_left maximum vs a).
Proof.
  revert a. induction vs as [|v vs IH]; intros a; [done|].
  cbn [fmap list_fmap fold_left].
  assert (maximum (f a) (f v) = f (maximum a v)) as ->; [|apply IH].
  unfold maximum. rewrite f_le. by destruct (d_le a v).
Qed.

Lemma reduce_minimum_fmap (vs : list A) :
  reduce minimum (f <$> vs) = f (reduce minimum vs).
Proof. destruct vs as [|v vs]; [done|apply fold_minimum_fmap]. Qed.

Lemma reduce_maximum_fmap (vs : list A) :
  reduce maximum (f <$> vs) = f (reduce maximum vs).
Proof. destruct vs as [|v vs]; [done|apply fold_maximum_fmap]. Qed.

End Monotone.

(** A change [g] of the magnitudes that acts as [h] on their
    differences, where quotients do not see [h]: the normalised column
    is the same. *)
Section Invariance.
Context {A : Type} `{Dtype A}.
Variables g h : A → A.
Hypothesis g_isnan : ∀ x, d_isnan (g x) = d_isnan x.
Hypothesis g_le : ∀ x y, d_le (g x) (g y) = d_le x y.
Hypothesis g_nan : g d_nan = d_nan.
Hypothesis h_isnan : ∀ x, d_isnan (h x) = d_isnan x.
Hypothesis h_le : ∀ x y, d_le (h x) (h y) = d_le x y.
Hypothesis h_nan : h d_nan = d_nan.
Hypothesis g_sub : ∀ x y, d_sub (g x) (g y) = h (d_sub x y).
Hypothesis h_div : ∀ x y, d_div (h x) (h y) = d_div x y.

Lemma normalized_fmap (xs : list A) : normalized (g <$> xs) = normalized xs.
Proof.
  unfold normalized, two_step_range, shifted.
  rewrite (notna_fmap g g_isnan), (reduce_minimum_fmap g g_le g_nan).
  set (lo := reduce minimum (notna xs)).
  assert ((λ x, d_sub x (g lo)) <$> (g <$> xs)
          = h <$> ((λ x, d_sub x lo) <$> xs)) as ->.
  { rewrite <-!list_fmap_compose. apply list_fmap_ext. intros i x _. simpl.
    apply g_sub. }
  rewrite (notna_fmap h h_isnan), (reduce_maximum_fmap h h_le h_nan).
  rewrite <-list_fmap_compose. apply list_fmap_ext. intros i x _. simpl.
  by rewrite g_sub, h_div.
Qed.

End Invariance.

Module ExactInvariance.
Import Exact ExactFacts.
Local Open Scope Qc_scope.

(** Adding a finite number to every magnitude. *)
Lemma shift_isnan (k : Qc) x : isnan (add x (XFin k)) = isnan x.
Proof. by destruct x as [p|[]|]. Qed.

Lemma shift_le (k : Qc) x y : le (add x (XFin k)) (add y (XFin k)) = le x y.
Proof.
  destruct x as [p|[]|], y as [q|[]|]; try done.
  simpl. apply bool_decide_ext. symmetry. apply Qcplus_le_mono_r.
Qed.

Lemma shift_sub (k : Qc) x y : sub (add x (XFin k)) (add y (XFin k)) = sub x y.
Proof.
  destruct x as [p|[]|], y as [q|[]|]; try done.
  unfold sub, add, opp. f_equal. ring.
Qed.

Lemma normalized_shift (k : Qc) (xs : list xnum) :
  normalized ((λ x, add x (XFin k)) <$> xs) = normalized xs.
Proof.
  apply (normalized_fmap (λ x, add x (XFin k)) (λ d, d)); try done.
  - apply shift_isnan.
  - apply shift_le.
  - apply shift_sub.
Qed.

(** Dividing every magnitude by a positive finite number. *)
Section Scale.
Variable k : Qc.
Hypothesis k_pos : 0 < k.

Lemma k_nonzero : k ≠ 0.
Proof. by apply not_eq_sym, Qclt_not_eq. Qed.

Lemma k_not_negative : negative k = false.
Proof.
  apply bool_decide_eq_false. intros Hk.
  by apply (Qclt_not_le _ _ Hk), Qclt_le_weak.
Qed.

Lemma Qcdiv_k_zero (p : Qc) : p / k = 0 ↔ p = 0.
Proof.
  split; [|intros ->; apply ExactUnit.Qcdiv_0_l].
  intros Hp. rewrite <-(Qcdiv_mult_l p k k_nonzero).
  rewrite <-(Qcmult_div_r p k k_nonzero) at 1.
  unfold Qcdiv in *. replace (k * (p * / k) * / k) with (p * / k * (k * / k)) by ring.
  rewrite Hp. ring.
Qed.

Lemma Qcdiv_k_le (p q : Qc) : p / k ≤ q / k ↔ p ≤ q.
Proof.
  unfold Qcdiv. symmetry. apply Qcmult_le_mono_pos_r. by apply Qcinv_pos.
Qed.

Lemma negative_div_k (p : Qc) : negative (p / k) = negative p.
Proof.
  unfold negative. apply bool_decide_ext.
  rewrite <-(ExactUnit.Qcdiv_0_l k) at 1. unfold Qcdiv. symmetry.
  apply Qcmult_lt_mono_pos_r. by apply Qcinv_pos.
Qed.

Lemma scale_fin (p : Qc) : div (XFin p) (XFin k) = XFin (p / k).
Proof. unfold div. by rewrite decide_False by apply k_nonzero. Qed.

Lemma scale_inf s : div (XInf s) (XFin k) = XInf s.
Proof. unfold div. by rewrite k_not_negative, xorb_false_r. Qed.

Lemma scale_isnan x : isnan (div x (XFin k)) = isnan x.
Proof. destruct x as [p| |]; [by rewrite scale_fin|by rewrite scale_inf|done]. Qed.

Lemma scale_le x y : le (div x (XFin k)) (div y (XFin k)) = le x y.
Proof.
  destruct x as [p|sx|], y as [q|sy|];
    rewrite ?scale_fin, ?scale_inf; try done.
  simpl. apply bool_decide_ext, Qcdiv_k_le.
Qed.

Lemma scale_sub x y :
  sub (div x (XFin k)) (div y (XFin k)) = div (sub x y) (XFin k).
Proof.
  destruct x as [p|sx|], y as [q|sy|];
    rewrite ?scale_fin, ?scale_inf; try done.
  - unfold sub, add, opp. rewrite scale_fin. f_equal.
    unfold Qcdiv. ring.
  - unfold sub, add, opp. by rewrite scale_inf.
  - unfold sub, add, opp. by rewrite scale_inf.
  - unfold sub, add, opp. destruct (Bool.eqb sx (negb sy)); [|done].
    by rewrite scale_inf.
Qed.

Lemma scale_div x y :
  div (div x (XFin k)) (div y (XFin k)) = div x y.
Proof.
  destruct x as [p|sx|], y as [q|sy|];
    rewrite ?scale_fin, ?scale_inf; try done.
  - unfold div. destruct (decide (q = 0)) as [->|Hq].
    + rewrite (decide_True (P := 0 / k = 0)) by apply ExactUnit.Qcdiv_0_l.
      destruct (decide (p = 0)) as [->|Hp].
      * by rewrite (decide_True (P := 0 / k = 0)) by apply ExactUnit.Qcdiv_0_l.
      * rewrite decide_False by (by rewrite Qcdiv_k_zero).
        by rewrite negative_div_k.
    + rewrite decide_False by (by rewrite Qcdiv_k_zero).
      f_equal. field. split; [done|apply k_nonzero].
  - unfold div. by rewrite negative_div_k.
Qed.

Lemma normalized_scale (xs : list xnum) :
  normalized ((λ x, div x (XFin k)) <$> xs) = normalized xs.
Proof.
  apply (normalized_fmap (λ x, div x (XFin k)) (λ d, div d (XFin k))).
  - apply scale_isnan.
  - apply scale_le.
  - done.
  - apply scale_isnan.
  - apply scale_le.
  - done.
  - apply scale_sub.
  - apply scale_div.
Qed.

End Scale.

End ExactInvariance.

(** X14.  Without rounding, the result of [normalize_lc] does not depend
    on the zero point or on the unit of the magnitudes: adding a finite
    number to every magnitude, or dividing every magnitude by a positive
    finite number, gives the same normalised column. *)
Theorem normalize_lc_zero_point_and_unit :
  ∀ (df df' : DataFrame Exact.xnum) (c : string) (xs : list Exact.xnum) (k : Qc),
    numeric_frame df → numeric_frame df' →
    frame_getitem df c = Ok (Num <$> xs) →
    (frame_getitem df' c = Ok (Num <$> ((λ x, d_add x (Exact.XFin k)) <$> xs)) →
       normalize_lc (PyFrame df') c = normalize_lc (PyFrame df) c) ∧
    ((0 < k)%Qc →
     frame_getitem df' c = Ok (Num <$> ((λ x, d_div x (Exact.XFin k)) <$> xs)) →
       normalize_lc (PyFrame df') c = normalize_lc (PyFrame df) c).
Proof.
  intros df df' c xs k Hdf Hdf' Hc. split.
  - intros Hc'.
    rewrite (normalize_lc_numeric df c xs Hdf Hc).
    rewrite (normalize_lc_numeric df' c _ Hdf' Hc').
    do 2 f_equal. apply ExactInvariance.normalized_shift.
  - intros Hk Hc'.
    rewrite (normalize_lc_numeric df c xs Hdf Hc).
    rewrite (normalize_lc_numeric df' c _ Hdf' Hc').
    do 2 f_equal. by apply ExactInvariance.normalized_scale.
Qed.

Lemma normalize_lc_zero_point_and_unit_witness :
  normalize_lc (PyFrame Exact.fainter_frame) "a" = normalize_lc Exact.test_table "a".
Proof.
  apply (proj1 (normalize_lc_zero_point_and_unit Exact.test_frame Exact.fainter_frame
    "a" [Exact.of_Z 1; Exact.of_Z 7; Exact.of_Z 3] (Qc_of_Z 1)
    ltac:(repeat constructor; by eexists) ltac:(repeat constructor; by eexists)
    eq_refl)).
  change (Ok [Num (Exact.of_Z (1 + 1)); Num (Exact.of_Z (7 + 1)); Num (Exact.of_Z (3 + 1))]
    = Ok [Num (Exact.XFin (Qc_of_Z 1 + Qc_of_Z 1)); Num (Exact.XFin (Qc_of_Z 7 + Qc_of_Z 1));
          Num (Exact.XFin (Qc_of_Z 3 + Qc_of_Z 1))] :> result (Series Exact.xnum)).
  unfold Exact.of_Z. by rewrite !Z2Qc_inj_add.
Defined.

(** ** The test suite *)

(** X15.  Every test of [tests/test_models.py] passes, for each of its
    parameter sets: the maximum, the mean (3.66 within one percent, and
    0) and the minimum of the three tables are the expected ones, and
    [max_mag] on a string raises [TypeError]. *)
Theorem test_suite_passes :
  Forall (λ case, Tests.max_mag_test case = true) Tests.max_mag_params ∧
  Forall (λ case, Tests.mean_mag_test case = true) Tests.mean_mag_params ∧
  Forall (λ case, Tests.min_mag_test case = true) Tests.min_mag_params ∧
  Tests.max_mag_strings_test = true.
Proof. repeat split; repeat constructor; vm_compute; reflexivity. Qed.
